(** * The generated Parquet writer and reader of [cmd/parquetgen]

  A shallow embedding of the Go code that the template [tpl] in
  [cmd/parquetgen/main.go] expands to: the column buffers ([Field] and its
  required and optional implementations), the row-group chain of
  [ParquetWriter], and [ParquetReader].

  Conventions.
  - Go [int], [int32], [int64] counters are [Z]; a byte is a [Z] in
    [0, 256); a [string] and a [[]byte] are lists of bytes.
  - A [float32] value is carried as its IEEE-754 bit pattern, which is what
    [binary.Write] and [binary.Read] transport.
  - A Go method that mutates its receiver returns the new receiver.
  - A Go run-time panic (index out of range, negative [make] length) is the
    outcome [Panic]; a loop or recursion that did not finish within its
    fuel is [OutOfFuel].
  - The [parquet] package (metadata, page headers, level codec) and
    [snappy] are not part of [cmd/parquetgen]; they are the operations of
    the class [Collaborator]. *)

From Stdlib Require Import ZArith Lia ZifyNat.
From stdpp Require Import base list strings gmap.

Local Open Scope Z_scope.
Set Warnings "-register-all".

(** ** Errors and outcomes *)

Inductive error : Type :=
| io_EOF
| io_ErrUnexpectedEOF
| io_ErrShortWrite
| collaborator_error (msg : string)
| unknown_field (name : string)
| unable_to_read_field (name : string) (cause : error).

Inductive outcome (A : Type) : Type :=
| Ok (a : A)
| Err (e : error)
| Panic
| OutOfFuel.

Arguments Ok {A} a.
Arguments Err {A} e.
Arguments Panic {A}.
Arguments OutOfFuel {A}.

Definition bind {A B : Type} (m : outcome A) (k : A → outcome B) : outcome B :=
match m with
| Ok a => k a
| Err e => Err e
| Panic => Panic
| OutOfFuel => OutOfFuel
end.

Notation "'let*' p ':=' m 'in' k" := (bind m (λ x, match x with p => k end))
(at level 10, p pattern, m at level 200, k at level 200, only parsing).

(** Whether an outcome is a result, and the error it is otherwise. *)
Definition is_ok {A : Type} (m : outcome A) : bool :=
  match m with
  | Ok _ => true
  | _ => false
  end.


(** [len(s)] of a Go slice. *)
Definition len {A : Type} (l : list A) : Z := Z.of_nat (length l).

(** ** encoding/binary, little endian *)

(** [binary.LittleEndian.PutUintN]: the [w] low bytes of [z], lowest first. *)
Fixpoint le_bytes (w : nat) (z : Z) : list Z :=
match w with
| O => []
| S w' => Z.land z 255 :: le_bytes w' (Z.shiftr z 8)
end.

(** [binary.LittleEndian.UintN]. *)
Fixpoint le_uint (bs : list Z) : Z :=
match bs with
| [] => 0
| b :: bs' => Z.lor b (Z.shiftl (le_uint bs') 8)
end.

(** Conversion of an unsigned [bits]-bit pattern to the signed integer. *)
Definition to_signed (bits : Z) (u : Z) : Z :=
if u <? 2 ^ (bits - 1) then u else u - 2 ^ bits.

(** The fixed-width physical types; [Float32] values are bit patterns. *)
Inductive numtype : Type := Uint32 | Int32 | Int64 | Uint64 | Float32.

Definition width (t : numtype) : nat :=
match t with
| Uint32 | Int32 | Float32 => 4%nat
| Int64 | Uint64 => 8%nat
end.

Definition decode_num (t : numtype) (bs : list Z) : Z :=
match t with
| Int32 => to_signed 32 (le_uint bs)
| Int64 => to_signed 64 (le_uint bs)
| Uint32 | Uint64 | Float32 => le_uint bs
end.

(** [binary.Write(&buf, binary.LittleEndian, v)] for every [v] of a slice
  (or for the slice at once, as [Int32Field.Write] does: the same bytes). *)
Definition encode_nums (t : numtype) (vals : list Z) : list Z :=
flat_map (le_bytes (width t)) vals.

Fixpoint decode_nums (t : numtype) (n : nat) (bs : list Z) : list Z :=
match n with
| O => []
| S n' => decode_num t (take (width t) bs) :: decode_nums t n' (drop (width t) bs)
end.

(** [binary.Read(rr, binary.LittleEndian, &v)] with [v := make([]T, n)]:
  [io.ReadFull] of [n * width] bytes, then the decoding. On a short buffer
  [v] keeps its zeros and the error of [io.ReadFull] is returned. *)
Definition binary_Read (t : numtype) (rr : list Z) (n : nat) : list Z * option error :=
if (n * width t <=? length rr)%nat
then (decode_nums t n rr, None)
else (replicate n 0,
      Some (match rr with [] => io_EOF | _ => io_ErrUnexpectedEOF end)).

(** [binary.Read(rr, binary.LittleEndian, &x)] with [x int32], followed by
  the rest of the buffer. *)
Definition binary_Read_int32 (rr : list Z) : outcome (Z * list Z) :=
if (4 <=? length rr)%nat
then Ok (to_signed 32 (le_uint (take 4 rr)), drop 4 rr)
else Err (match rr with [] => io_EOF | _ => io_ErrUnexpectedEOF end).

(** [rr.Read(s)] on a [bytes.Buffer] with [s := make([]byte, x)]: an empty
  buffer gives [io.EOF] unless [x = 0]; otherwise [s] receives what is
  there, at most [x] bytes, and keeps zeros behind a short read. *)
Definition Buffer_Read (rr : list Z) (x : nat) : outcome (list Z * list Z) :=
match rr, x with
| [], S _ => Err io_EOF
| _, _ => Ok (take x rr ++ replicate (x - length rr) 0, drop x rr)
end.

(** ** The bit-packed boolean payload *)

(** The loop of [BoolField.Write] and [BoolOptionalField.Write]:
  [for i := 0; i < ln; i++ { if f.vals[i] { rawBuf[i/8] = rawBuf[i/8] | (1 << uint32(i%8)) } }],
  run from index [i] over the values that are left. *)
Fixpoint pack_loop (vals : list bool) (i : nat) (rawBuf : list Z) : list Z :=
match vals with
| [] => rawBuf
| v :: vals' =>
    pack_loop vals' (S i)
      (if v
       then alter (λ b, Z.lor b (Z.shiftl 1 (Z.of_nat (i mod 8)))) (i / 8)%nat rawBuf
       else rawBuf)
end.

(** [ln := len(f.vals); byteNum := (ln + 7) / 8; rawBuf := make([]byte, byteNum)]
  and the loop. *)
Definition rawBuf (vals : list bool) : list Z :=
pack_loop vals 0 (replicate ((length vals + 7) / 8) 0).

(** ** Writers: the byte sink and [WriteCounter] *)

(** The [io.Writer] a writer is created over: the bytes it has accepted, and
  how many more it accepts ([None]: no limit, as a [bytes.Buffer]). A write
  that does not fit is cut short and reports [io.ErrShortWrite]. *)
Record Sink : Type := mkSink { data : list Z; room : option nat }.

Definition Sink_Write (s : Sink) (p : list Z) : Sink * Z * option error :=
match room s with
| None => (mkSink (data s ++ p) None, len p, None)
| Some k =>
    if (length p <=? k)%nat
    then (mkSink (data s ++ p) (Some (k - length p)%nat), len p, None)
    else (mkSink (data s ++ take k p) (Some 0%nat), Z.of_nat k, Some io_ErrShortWrite)
end.

Record WriteCounter : Type := mkWriteCounter { wc_n : Z; wc_w : Sink }.

(** [func (w *WriteCounter) Write(p []byte) (int, error)]. *)
Definition WriteCounter_Write (wc : WriteCounter) (p : list Z)
: WriteCounter * Z * option error :=
let '(s, k, err) := Sink_Write (wc_w wc) p in
(mkWriteCounter (wc_n wc + k) s, k, err).

(** A call [if _, err := w.Write(p); err != nil { return err }]. *)
Definition write_or_fail (wc : WriteCounter) (p : list Z) : outcome WriteCounter :=
let '(wc', _, err) := WriteCounter_Write wc p in
match err with
| None => Ok wc'
| Some e => Err e
end.

(** [wc'] holds what [wc] held and what was written since. *)
Definition extends (wc wc' : WriteCounter) : Prop :=
∃ x, data (wc_w wc') = data (wc_w wc) ++ x.

(** ** Column buffers *)

Section Columns.
Context {Rec : Type}.

(** [Uint32Field], [Int32Field], ..., [BoolField], [StringField]: the
    embedded [RequiredField{col}], the values and the two adapters. *)
Record RequiredField (V : Type) : Type := mkRequiredField {
  r_col : string;
  r_vals : list V;
  r_val : Rec → V;
  r_read : Rec → V → Rec
}.

(** [Uint32OptionalField], ...: the embedded [OptionalField{defs, col}],
    the values and the two adapters; a nil pointer is [None]. *)
Record OptionalField (V : Type) : Type := mkOptionalField {
  o_defs : list Z;
  o_col : string;
  o_vals : list V;
  o_val : Rec → option V;
  o_read : Rec → option V → Rec
}.

Arguments r_col {V}. Arguments r_vals {V}. Arguments r_val {V}. Arguments r_read {V}.
Arguments o_defs {V}. Arguments o_col {V}. Arguments o_vals {V}.
Arguments o_val {V}. Arguments o_read {V}.
Arguments mkRequiredField {V}.
Arguments mkOptionalField {V}.

(** The implementations of the interface [Field]. The ten fixed-width
    types share one body each for the required and the optional case. *)
Inductive Field : Type :=
| NumField (t : numtype) (f : RequiredField Z)
| NumOptionalField (t : numtype) (f : OptionalField Z)
| BoolField (f : RequiredField bool)
| BoolOptionalField (f : OptionalField bool)
| StringField (f : RequiredField (list Z))
| StringOptionalField (f : OptionalField (list Z)).

(** [NewUint32OptionalField(val, read, col)] and its siblings. *)
Definition NewOptionalField {V : Type} (val : Rec → option V)
    (read : Rec → option V → Rec) (col : string) : OptionalField V :=
  mkOptionalField [] col [] val read.

(** [NewUint32Field(val, read, col)] and its siblings. *)
Definition NewRequiredField {V : Type} (val : Rec → V)
    (read : Rec → V → Rec) (col : string) : RequiredField V :=
  mkRequiredField col [] val read.

(** [func (f *OptionalField) nVals() int]. *)
Fixpoint nVals (defs : list Z) : Z :=
  match defs with
  | [] => 0
  | d :: defs' => (if d =? 1 then 1 else 0) + nVals defs'
  end.

(** [func (f *Uint32Field) Add(r T)]: [f.vals = append(f.vals, f.val(r))]. *)
Definition RequiredField_Add {V : Type} (f : RequiredField V) (r : Rec)
  : RequiredField V :=
  mkRequiredField (r_col f) (r_vals f ++ [r_val f r]) (r_val f) (r_read f).

(** [func (f *Uint32OptionalField) Add(r T)]. *)
Definition OptionalField_Add {V : Type} (f : OptionalField V) (r : Rec)
  : OptionalField V :=
  match o_val f r with
  | Some v =>
      mkOptionalField (o_defs f ++ [1]) (o_col f) (o_vals f ++ [v]) (o_val f) (o_read f)
  | None =>
      mkOptionalField (o_defs f ++ [0]) (o_col f) (o_vals f) (o_val f) (o_read f)
  end.

(** [func (f *Uint32Field) Scan(r *T)]. *)
Definition RequiredField_Scan {V : Type} (f : RequiredField V) (r : Rec)
  : RequiredField V * Rec :=
  match r_vals f with
  | [] => (f, r)
  | v :: vals' =>
      (mkRequiredField (r_col f) vals' (r_val f) (r_read f), r_read f r v)
  end.

(** [func (f *Uint32OptionalField) Scan(r *T)]; [f.vals[0]] panics on an
    empty [vals]. *)
Definition OptionalField_Scan {V : Type} (f : OptionalField V) (r : Rec)
  : outcome (OptionalField V * Rec) :=
  match o_defs f with
  | [] => Ok (f, r)
  | d :: defs' =>
      if d =? 1 then
        match o_vals f with
        | [] => Panic
        | v :: vals' =>
            Ok (mkOptionalField defs' (o_col f) vals' (o_val f) (o_read f),
                o_read f r (Some v))
        end
      else
        Ok (mkOptionalField defs' (o_col f) (o_vals f) (o_val f) (o_read f),
            o_read f r None)
  end.

(** The methods of the interface, by implementation. *)
Definition Field_Name (f : Field) : string :=
  match f with
  | NumField _ f | BoolField f | StringField f => r_col f
  | NumOptionalField _ f | BoolOptionalField f | StringOptionalField f => o_col f
  end.

Definition Field_Add (f : Field) (r : Rec) : Field :=
  match f with
  | NumField t f => NumField t (RequiredField_Add f r)
  | NumOptionalField t f => NumOptionalField t (OptionalField_Add f r)
  | BoolField f => BoolField (RequiredField_Add f r)
  | BoolOptionalField f => BoolOptionalField (OptionalField_Add f r)
  | StringField f => StringField (RequiredField_Add f r)
  | StringOptionalField f => StringOptionalField (OptionalField_Add f r)
  end.

Definition Field_Scan (f : Field) (r : Rec) : outcome (Field * Rec) :=
  match f with
  | NumField t f => let '(f', r') := RequiredField_Scan f r in Ok (NumField t f', r')
  | BoolField f => let '(f', r') := RequiredField_Scan f r in Ok (BoolField f', r')
  | StringField f => let '(f', r') := RequiredField_Scan f r in Ok (StringField f', r')
  | NumOptionalField t f =>
      let* (f', r') := OptionalField_Scan f r in Ok (NumOptionalField t f', r')
  | BoolOptionalField f =>
      let* (f', r') := OptionalField_Scan f r in Ok (BoolOptionalField f', r')
  | StringOptionalField f =>
      let* (f', r') := OptionalField_Scan f r in Ok (StringOptionalField f', r')
  end.

(** Whether the sequence that [Scan] tests first is empty: [vals] of a
    required column, [defs] of an optional one. *)
Definition drained (f : Field) : Prop :=
  match f with
  | NumField _ f => r_vals f = []
  | BoolField f => r_vals f = []
  | StringField f => r_vals f = []
  | NumOptionalField _ f => o_defs f = []
  | BoolOptionalField f => o_defs f = []
  | StringOptionalField f => o_defs f = []
  end.

End Columns.

Arguments RequiredField : clear implicits.
Arguments OptionalField : clear implicits.
Arguments Field : clear implicits.
Arguments r_col {Rec V}. Arguments r_vals {Rec V}.
Arguments r_val {Rec V}. Arguments r_read {Rec V}.
Arguments o_defs {Rec V}. Arguments o_col {Rec V}. Arguments o_vals {Rec V}.
Arguments o_val {Rec V}. Arguments o_read {Rec V}.
Arguments mkRequiredField {Rec V}.
Arguments mkOptionalField {Rec V}.

(** ** The reader's input *)

(** The [io.ReadSeeker] a reader is created over, with the behaviour of a
  [bytes.Reader]: [Read] at the end of the data gives [io.EOF]; otherwise
  it fills the buffer with what is there and does not fail on a short
  read. *)
Record Stream : Type := mkStream { s_data : list Z; s_pos : nat }.

(** [r.Read(b)] with [b := make([]byte, k)]: the buffer after the call, the
  stream after the call and the error. *)
Definition Stream_Read (r : Stream) (k : nat) : list Z * Stream * option error :=
if (length (s_data r) <=? s_pos r)%nat
then (replicate k 0, r, Some io_EOF)
else
  let got := take k (drop (s_pos r) (s_data r)) in
  (got ++ replicate (k - length got) 0,
   mkStream (s_data r) (s_pos r + length got), None).

(** [r.Seek(o, io.SeekStart)]. *)
Definition Stream_Seek (r : Stream) (o : Z) : outcome Stream :=
if o <? 0 then Err (collaborator_error "negative position")
else Ok (mkStream (s_data r) (Z.to_nat o)).

(** ** The [parquet] package and [snappy] *)

Inductive ptype : Type :=
| BoolType | Int32Type | Uint32Type | Int64Type | Uint64Type | Float32Type | StringType.

Inductive repetition : Type := RepetitionRequired | RepetitionOptional.

(** [parquet.Field{Name, Type, RepetitionType}]. *)
Record parquet_Field : Type := mkparquet_Field {
Name : string;
Type_ : ptype;
RepetitionType : repetition
}.

(** [parquet.Position]; the generated code reads [pos.N] only. *)
Record Position : Type := mkPosition { pos_N : Z }.

(** What the generated code reads of a page header:
  [ph.CompressedPageSize] and [ph.DataPageHeader.NumValues]. *)
Record PageHeader : Type := mkPageHeader { CompressedPageSize : Z; NumValues : Z }.

(** What the generated code reads of a row group of the footer:
  [rg.Columns] and, of each column, [col.MetaData.PathInSchema]. *)
Record ColumnChunk : Type := mkColumnChunk { PathInSchema : list string }.
Record RowGroup : Type := mkRowGroup { Columns : list ColumnChunk }.

(** The operations of [*parquet.Metadata], of the package [parquet] and of
  [snappy] that the generated code calls. An operation that writes to an
  [io.Writer] is given by the bytes it hands to that writer. *)
Class Collaborator : Type := {
Metadata : Type;
(** [snappy.Encode(nil, b)] and [snappy.Decode(nil, b)] *)
snappy_Encode : list Z → list Z;
snappy_Decode : list Z → outcome (list Z);
(** [parquet.New(schema...)] *)
parquet_New : list parquet_Field → Metadata;
(** [meta.StartRowGroup(schema...)] *)
StartRowGroup : Metadata → list parquet_Field → Metadata;
(** [meta.WritePageHeader(w, col, dataLen, compressedLen, count)]: the
    metadata after the call and the header bytes for [w] *)
page_header : Metadata → string → Z → Z → Z → outcome (Metadata * list Z);
(** [meta.Footer(w)]: the footer bytes for [w] *)
footer : Metadata → outcome (list Z);
(** [parquet.WriteLevels(w, defs)]: the level bytes for [w] *)
levels : list Z → outcome (list Z);
(** [parquet.ReadLevels(bytes.NewBuffer(b))]: the levels and the number of
    bytes they took *)
ReadLevels : list Z → outcome (list Z * Z);
(** [parquet.GetBools(rr, n)] *)
GetBools : list Z → Z → outcome (list bool);
(** [meta.PageHeader(r)] *)
meta_PageHeader : Metadata → Stream → outcome (PageHeader * Stream);
(** [meta.ReadFooter(r)] *)
ReadFooter : Metadata → Stream → outcome (Metadata * Stream);
(** [meta.Rows()], [meta.Offsets()], [meta.RowGroups()] *)
Rows : Metadata → Z;
Offsets : Metadata → outcome (gmap string (list Position));
RowGroups : Metadata → list RowGroup
}.

(** The two holes of the template: [{{.Type}}] and the constructor calls
  [{{range .Fields}}] that [Fields()] returns. *)
Class Template : Type := {
Rec : Type;
Fields : list (Field Rec)
}.

Definition PAR1 : list Z := [80; 65; 82; 49].

Section Engine.
Context {C : Collaborator} {T : Template}.

(** *** Writing a page *)

(** What [f.Write(p.w, p.meta)] works on: the root writer's [*WriteCounter]
    and [*parquet.Metadata]. *)
Record Store : Type := mkStore { meta : Metadata; out : WriteCounter }.

(** Modelled from the spec: [meta.WritePageHeader(w, col, dataLen,
    compressedLen, count)] is not in [cmd/parquetgen]; it emits a page
    header recording the three numbers and writes the header bytes to
    [w]. *)
Definition WritePageHeader (st : Store) (col : string)
    (dataLen compressedLen count : Z) : outcome Store :=
  let* (m, hdr) := page_header (meta st) col dataLen compressedLen count in
  let* wc := write_or_fail (out st) hdr in
  Ok (mkStore m wc).

(** Modelled from the spec: [parquet.WriteLevels(w, defs)] is not in
    [cmd/parquetgen]; it serialises the level stream through [w]. *)
Definition WriteLevels (wc : WriteCounter) (defs : list Z) : outcome WriteCounter :=
  let* bs := levels defs in
  write_or_fail wc bs.

(** [func (f *RequiredField) doWrite(w, meta, vals []byte, count int) error]. *)
Definition RequiredField_doWrite (col : string) (st : Store)
    (vals : list Z) (count : Z) : outcome Store :=
  let compressed := snappy_Encode vals in
  let* st1 := WritePageHeader st col (len vals) (len compressed) count in
  let* wc := write_or_fail (out st1) compressed in
  Ok (mkStore (meta st1) wc).

(** The first half of [OptionalField.doWrite]:
    [buf := bytes.Buffer{}; wc := &WriteCounter{w: &buf}], the levels and
    the values written through [wc]. *)
Definition OptionalField_fill (defs : list Z) (vals : list Z) : outcome WriteCounter :=
  let wc := mkWriteCounter 0 (mkSink [] None) in
  let* wc1 := WriteLevels wc defs in
  write_or_fail wc1 vals.

(** [func (f *OptionalField) doWrite(w, meta, vals []byte, count int) error];
    [buf.Bytes()] is the data of the sink of [wc]. *)
Definition OptionalField_doWrite (defs : list Z) (col : string) (st : Store)
    (vals : list Z) (count : Z) : outcome Store :=
  let* wc := OptionalField_fill defs vals in
  let compressed := snappy_Encode (data (wc_w wc)) in
  let* st1 := WritePageHeader st col (wc_n wc) (len compressed) (len defs) in
  let* wc' := write_or_fail (out st1) compressed in
  Ok (mkStore (meta st1) wc').

(** The payload of [StringField.Write]: for every [s],
    [int32(len(s))] in little endian and the bytes of [s]. *)
Definition encode_strings (vals : list (list Z)) : list Z :=
  flat_map (λ s, le_bytes 4 (len s) ++ s) vals.

(** [Write(w io.Writer, meta *parquet.Metadata) error] of every
    implementation. *)
Definition Field_Write (f : Field Rec) (st : Store) : outcome Store :=
  match f with
  | NumField t f =>
      RequiredField_doWrite (r_col f) st (encode_nums t (r_vals f)) (len (r_vals f))
  | NumOptionalField t f =>
      OptionalField_doWrite (o_defs f) (o_col f) st
        (encode_nums t (o_vals f)) (len (o_vals f))
  | BoolField f =>
      RequiredField_doWrite (r_col f) st (rawBuf (r_vals f)) (len (r_vals f))
  | BoolOptionalField f =>
      OptionalField_doWrite (o_defs f) (o_col f) st
        (rawBuf (o_vals f)) (len (o_vals f))
  | StringField f =>
      RequiredField_doWrite (r_col f) st (encode_strings (r_vals f)) (len (r_vals f))
  | StringOptionalField f =>
      OptionalField_doWrite (o_defs f) (o_col f) st
        (encode_strings (o_vals f)) (len (o_vals f))
  end.

Definition numtype_ptype (t : numtype) : ptype :=
  match t with
  | Uint32 => Uint32Type | Int32 => Int32Type | Int64 => Int64Type
  | Uint64 => Uint64Type | Float32 => Float32Type
  end.

(** [Schema() parquet.Field] of every implementation. *)
Definition Field_Schema (f : Field Rec) : parquet_Field :=
  match f with
  | NumField t f => mkparquet_Field (r_col f) (numtype_ptype t) RepetitionRequired
  | NumOptionalField t f => mkparquet_Field (o_col f) (numtype_ptype t) RepetitionOptional
  | BoolField f => mkparquet_Field (r_col f) BoolType RepetitionRequired
  | BoolOptionalField f => mkparquet_Field (o_col f) BoolType RepetitionOptional
  | StringField f => mkparquet_Field (r_col f) StringType RepetitionRequired
  | StringOptionalField f => mkparquet_Field (o_col f) StringType RepetitionOptional
  end.

(** *** Reading a page *)

(** [func (f *RequiredField) doRead(r, meta, pos) (io.Reader, error)]: the
    loop [for nRead < pos.N], from the state [(nRead, out)]. *)
Fixpoint RequiredField_doRead (fuel : nat) (m : Metadata) (r : Stream)
    (pos : Position) (nRead : Z) (acc : list Z) : outcome (list Z * Stream) :=
  if nRead <? pos_N pos then
    match fuel with
    | O => OutOfFuel
    | S fuel' =>
        let* (ph, r1) := meta_PageHeader m r in
        if CompressedPageSize ph <? 0 then Panic else
        let '(compressed, r2, err) := Stream_Read r1 (Z.to_nat (CompressedPageSize ph)) in
        match err with
        | Some e => Err e
        | None =>
            let* page := snappy_Decode compressed in
            RequiredField_doRead fuel' m r2 pos (nRead + NumValues ph) (acc ++ page)
        end
    end
  else Ok (acc, r).

(** [func (f *OptionalField) doRead(r, meta, pos) (io.Reader, error)]: the
    loop from the state [(nRead, out, f.defs)]; [uncompressed[l:]] panics
    when [l] is out of range. *)
Fixpoint OptionalField_doRead (fuel : nat) (m : Metadata) (r : Stream)
    (pos : Position) (nRead : Z) (acc : list Z) (defs : list Z)
  : outcome (list Z * list Z * Stream) :=
  if nRead <? pos_N pos then
    match fuel with
    | O => OutOfFuel
    | S fuel' =>
        let* (ph, r1) := meta_PageHeader m r in
        if CompressedPageSize ph <? 0 then Panic else
        let '(compressed, r2, err) := Stream_Read r1 (Z.to_nat (CompressedPageSize ph)) in
        match err with
        | Some e => Err e
        | None =>
            let* uncompressed := snappy_Decode compressed in
            let* (lv, l) := ReadLevels uncompressed in
            if (l <? 0) || (len uncompressed <? l) then Panic else
            OptionalField_doRead fuel' m r2 pos (nRead + NumValues ph)
              (acc ++ drop (Z.to_nat l) uncompressed) (defs ++ lv)
        end
    end
  else Ok (defs, acc, r).

(** The loop of [StringField.Read], [k] iterations from now:
    [make([]byte, x)] panics on a negative [x]. *)
Fixpoint StringField_Read_loop (k : nat) (rr : list Z) (vals : list (list Z))
  : outcome (list (list Z)) :=
  match k with
  | O => Ok vals
  | S k' =>
      let* (x, rr1) := binary_Read_int32 rr in
      if x <? 0 then Panic else
      let* (s, rr2) := Buffer_Read rr1 (Z.to_nat x) in
      StringField_Read_loop k' rr2 (vals ++ [s])
  end.

(** The loop of [StringOptionalField.Read], [k] iterations from now, the
    next one reading [f.defs[j]] (with [j = start + j] of the source). *)
Fixpoint StringOptionalField_Read_loop (k : nat) (j : nat) (defs : list Z)
    (rr : list Z) (vals : list (list Z)) : outcome (list (list Z)) :=
  match k with
  | O => Ok vals
  | S k' =>
      match defs !! j with
      | None => Panic
      | Some d =>
          if d =? 0 then StringOptionalField_Read_loop k' (S j) defs rr vals
          else
            let* (x, rr1) := binary_Read_int32 rr in
            if x <? 0 then Panic else
            let* (s, rr2) := Buffer_Read rr1 (Z.to_nat x) in
            StringOptionalField_Read_loop k' (S j) defs rr2 (vals ++ [s])
      end
  end.

(** [func (f *Uint32Field) Read(r, meta, pos) error] and the same method of
    the other required fixed-width types. *)
Definition NumField_Read (fuel : nat) (t : numtype) (f : RequiredField Rec Z)
    (m : Metadata) (r : Stream) (pos : Position)
  : outcome (RequiredField Rec Z * Stream) :=
  let* (rr, r') := RequiredField_doRead fuel m r pos 0 [] in
  if pos_N pos <? 0 then Panic else
  let '(v, err) := binary_Read t rr (Z.to_nat (pos_N pos)) in
  match err with
  | Some e => Err e
  | None => Ok (mkRequiredField (r_col f) (r_vals f ++ v) (r_val f) (r_read f), r')
  end.

(** [func (f *Uint32OptionalField) Read(r, meta, pos) error] and the same
    method of the other optional fixed-width types:
    [v := make([]uint32, f.nVals()-len(f.vals))]. *)
Definition NumOptionalField_Read (fuel : nat) (t : numtype) (f : OptionalField Rec Z)
    (m : Metadata) (r : Stream) (pos : Position)
  : outcome (OptionalField Rec Z * Stream) :=
  let* (defs, rr, r') := OptionalField_doRead fuel m r pos 0 [] (o_defs f) in
  let count := nVals defs - len (o_vals f) in
  if count <? 0 then Panic else
  let '(v, err) := binary_Read t rr (Z.to_nat count) in
  match err with
  | Some e => Err e
  | None =>
      Ok (mkOptionalField defs (o_col f) (o_vals f ++ v) (o_val f) (o_read f), r')
  end.

(** [func (f *BoolField) Read(r, meta, pos) error]:
    [f.vals, err = parquet.GetBools(rr, int(pos.N))]. *)
Definition BoolField_Read (fuel : nat) (f : RequiredField Rec bool)
    (m : Metadata) (r : Stream) (pos : Position)
  : outcome (RequiredField Rec bool * Stream) :=
  let* (rr, r') := RequiredField_doRead fuel m r pos 0 [] in
  let* v := GetBools rr (pos_N pos) in
  Ok (mkRequiredField (r_col f) v (r_val f) (r_read f), r').

(** [func (f *BoolOptionalField) Read(r, meta, pos) error]:
    [v, err := parquet.GetBools(rr, f.nVals()-len(f.vals))] and
    [f.vals = append(f.vals, v...)]. *)
Definition BoolOptionalField_Read (fuel : nat) (f : OptionalField Rec bool)
    (m : Metadata) (r : Stream) (pos : Position)
  : outcome (OptionalField Rec bool * Stream) :=
  let* (defs, rr, r') := OptionalField_doRead fuel m r pos 0 [] (o_defs f) in
  let* v := GetBools rr (nVals defs - len (o_vals f)) in
  Ok (mkOptionalField defs (o_col f) (o_vals f ++ v) (o_val f) (o_read f), r').

(** [func (f *StringField) Read(r, meta, pos) error]. *)
Definition StringField_Read (fuel : nat) (f : RequiredField Rec (list Z))
    (m : Metadata) (r : Stream) (pos : Position)
  : outcome (RequiredField Rec (list Z) * Stream) :=
  let* (rr, r') := RequiredField_doRead fuel m r pos 0 [] in
  let* vals := StringField_Read_loop (Z.to_nat (pos_N pos)) rr (r_vals f) in
  Ok (mkRequiredField (r_col f) vals (r_val f) (r_read f), r').

(** [func (f *StringOptionalField) Read(r, meta, pos) error], with
    [start := len(f.defs)] taken before [doRead]. *)
Definition StringOptionalField_Read (fuel : nat) (f : OptionalField Rec (list Z))
    (m : Metadata) (r : Stream) (pos : Position)
  : outcome (OptionalField Rec (list Z) * Stream) :=
  let start := length (o_defs f) in
  let* (defs, rr, r') := OptionalField_doRead fuel m r pos 0 [] (o_defs f) in
  let* vals :=
    StringOptionalField_Read_loop (Z.to_nat (pos_N pos)) start defs rr (o_vals f) in
  Ok (mkOptionalField defs (o_col f) vals (o_val f) (o_read f), r').

(** [Read(r io.ReadSeeker, meta *parquet.Metadata, pos parquet.Position) error]
    of every implementation. *)
Definition Field_Read (fuel : nat) (f : Field Rec) (m : Metadata) (r : Stream)
    (pos : Position) : outcome (Field Rec * Stream) :=
  match f with
  | NumField t f =>
      let* (f', r') := NumField_Read fuel t f m r pos in Ok (NumField t f', r')
  | NumOptionalField t f =>
      let* (f', r') := NumOptionalField_Read fuel t f m r pos in
      Ok (NumOptionalField t f', r')
  | BoolField f =>
      let* (f', r') := BoolField_Read fuel f m r pos in Ok (BoolField f', r')
  | BoolOptionalField f =>
      let* (f', r') := BoolOptionalField_Read fuel f m r pos in
      Ok (BoolOptionalField f', r')
  | StringField f =>
      let* (f', r') := StringField_Read fuel f m r pos in Ok (StringField f', r')
  | StringOptionalField f =>
      let* (f', r') := StringOptionalField_Read fuel f m r pos in
      Ok (StringOptionalField f', r')
  end.

End Engine.

(** ** The writer: a chain of row groups *)

Section Writer.
Context {C : Collaborator} {T : Template}.

(** [type ParquetWriter struct], as a node of the chain: [fields], [len],
    [child] and [max]. The fields [meta] and [w] are pointers: a child is
    created with [withMeta(p.meta)] over [p.w], and [Write] and [Close] run
    on the root with the root's [p.w] and [p.meta] only, so the two shared
    objects are kept once, in [Handle]. *)
Inductive ParquetWriter : Type := mkParquetWriter {
  p_fields : list (Field Rec);
  p_len : Z;
  p_child : option ParquetWriter;
  p_max : Z
}.

(** The root [*ParquetWriter] that the caller holds. *)
Record Handle : Type := mkHandle {
  h_p : ParquetWriter;
  h_meta : Metadata;
  h_w : WriteCounter
}.

(** The values of type [func(p *ParquetWriter) error] of the file. *)
Inductive writer_option : Type :=
| MaxPageSize (m : Z)
| withMeta (m : Metadata)
| begin.

(** The writer under construction in [newParquetWriter]: [max], [meta]
    (nil at first) and [w]. *)
Record Builder : Type := mkBuilder {
  b_max : Z;
  b_meta : option Metadata;
  b_w : WriteCounter
}.

(** [opt(p)] for [opt := MaxPageSize(m)], [withMeta(m)] and [begin]. *)
Definition apply_option (b : Builder) (opt : writer_option) : outcome Builder :=
  match opt with
  | MaxPageSize m => Ok (mkBuilder m (b_meta b) (b_w b))
  | withMeta m => Ok (mkBuilder (b_max b) (Some m) (b_w b))
  | begin =>
      let* wc := write_or_fail (b_w b) PAR1 in
      Ok (mkBuilder (b_max b) (b_meta b) wc)
  end.

(** [for _, opt := range opts { if err := opt(p); err != nil { return nil, err } }]. *)
Fixpoint apply_options (b : Builder) (opts : list writer_option) : outcome Builder :=
  match opts with
  | [] => Ok b
  | opt :: opts' =>
      let* b' := apply_option b opt in
      apply_options b' opts'
  end.

(** The schema loop: [schema[i] = f.Schema()]. *)
Definition schema_of (ff : list (Field Rec)) : list parquet_Field :=
  map Field_Schema ff.

(** [func newParquetWriter(w io.Writer, opts ...func(p *ParquetWriter) error)]. *)
Definition newParquetWriter (sink : Sink) (opts : list writer_option)
  : outcome Handle :=
  let b := mkBuilder 1000 None (mkWriteCounter 0 sink) in
  let* b' := apply_options b opts in
  let m := match b_meta b' with
           | Some m => m
           | None => parquet_New (schema_of Fields)
           end in
  Ok (mkHandle (mkParquetWriter Fields 0 None (b_max b')) m (b_w b')).

(** [func NewParquetWriter(w io.Writer, opts ...)]:
    [newParquetWriter(w, append(opts, begin)...)]. *)
Definition NewParquetWriter (sink : Sink) (opts : list writer_option)
  : outcome Handle :=
  newParquetWriter sink (opts ++ [begin]).

(** The node that [newParquetWriter(p.w, MaxPageSize(p.max), withMeta(p.meta))]
    creates in [Add]; neither option can fail. *)
Definition new_child (p : ParquetWriter) : ParquetWriter :=
  mkParquetWriter Fields 0 None (p_max p).

(** [func (p *ParquetWriter) Add(rec T)]; the fuel bounds the depth of the
    recursion [p.child.Add(rec)]. *)
Fixpoint ParquetWriter_Add (fuel : nat) (p : ParquetWriter) (rec : Rec)
  : outcome ParquetWriter :=
  match fuel with
  | O => OutOfFuel
  | S fuel' =>
      if p_len p =? p_max p then
        let c := match p_child p with
                 | None => new_child p
                 | Some c => c
                 end in
        let* c' := ParquetWriter_Add fuel' c rec in
        Ok (mkParquetWriter (p_fields p) (p_len p) (Some c') (p_max p))
      else
        Ok (mkParquetWriter (map (λ f, Field_Add f rec) (p_fields p))
              (p_len p + 1) (p_child p) (p_max p))
  end.

(** [Add] of each record of a sequence, in order. *)
Fixpoint ParquetWriter_AddAll (fuel : nat) (p : ParquetWriter) (recs : list Rec)
  : outcome ParquetWriter :=
  match recs with
  | [] => Ok p
  | rec :: recs' =>
      let* p' := ParquetWriter_Add fuel p rec in
      ParquetWriter_AddAll fuel p' recs'
  end.

(** The inner loop of [Write]:
    [for child := p.child; child != nil; child = child.child
       { child.fields[i].Write(p.w, p.meta) }], from the node [c]. *)
Fixpoint Write_children (i : nat) (c : ParquetWriter) (st : Store) : outcome Store :=
  match p_fields c !! i with
  | None => Panic
  | Some f =>
      let* st' := Field_Write f st in
      match p_child c with
      | None => Ok st'
      | Some c' => Write_children i c' st'
      end
  end.

(** The outer loop of [Write]: [for i, f := range p.fields], from the
    index [i] over the fields [fs] that are left. *)
Fixpoint Write_fields (p : ParquetWriter) (i : nat) (fs : list (Field Rec))
    (st : Store) : outcome Store :=
  match fs with
  | [] => Ok st
  | f :: fs' =>
      let* st1 := Field_Write f st in
      let* st2 := match p_child p with
                  | None => Ok st1
                  | Some c => Write_children i c st1
                  end in
      Write_fields p (S i) fs' st2
  end.

(** [func (p *ParquetWriter) Write() error]. *)
Definition ParquetWriter_Write (h : Handle) : outcome Handle :=
  let* st := Write_fields (h_p h) 0 (p_fields (h_p h)) (mkStore (h_meta h) (h_w h)) in
  let p := mkParquetWriter Fields 0 None (p_max (h_p h)) in
  Ok (mkHandle p (StartRowGroup (meta st) (schema_of (p_fields p))) (out st)).

(** Modelled from the spec: [meta.Footer(w)] is not in [cmd/parquetgen];
    it writes the footer record and its length to [w]. *)
Definition Footer (m : Metadata) (wc : WriteCounter) : outcome WriteCounter :=
  let* bs := footer m in
  write_or_fail wc bs.

(** [func (p *ParquetWriter) Close() error]. *)
Definition ParquetWriter_Close (h : Handle) : outcome Handle :=
  let* wc := Footer (h_meta h) (h_w h) in
  let* wc' := write_or_fail wc PAR1 in
  Ok (mkHandle (h_p h) (h_meta h) wc').

(** [p.Add(rec)] on the root. *)
Definition Handle_Add (fuel : nat) (h : Handle) (rec : Rec) : outcome Handle :=
  let* p := ParquetWriter_Add fuel (h_p h) rec in
  Ok (mkHandle p (h_meta h) (h_w h)).

(** What a caller does between [NewParquetWriter] and [Close]. *)
Inductive call : Type :=
| call_Add (rec : Rec)
| call_Write.

Fixpoint run_calls (fuel : nat) (h : Handle) (cs : list call) : outcome Handle :=
  match cs with
  | [] => Ok h
  | call_Add rec :: cs' =>
      let* h' := Handle_Add fuel h rec in run_calls fuel h' cs'
  | call_Write :: cs' =>
      let* h' := ParquetWriter_Write h in run_calls fuel h' cs'
  end.

(** The row groups of a writer: the root and its chained children. *)
Fixpoint chain (p : ParquetWriter) : list ParquetWriter :=
  p :: match p_child p with
       | None => []
       | Some c => chain c
       end.

(** The column buffers of index [i], one per row group, in chain order. *)
Definition column (i : nat) (p : ParquetWriter) : list (Field Rec) :=
  omap (λ q, p_fields q !! i) (chain p).

(** Columns in schema order and, within a column, row groups in chain
    order. *)
Definition flush_order (p : ParquetWriter) : list (Field Rec) :=
  flat_map (λ i, column i p) (seq 0 (length (p_fields p))).

(** [f.Write(p.w, p.meta)] of each buffer of a list, in order, up to the
    first error. *)
Fixpoint write_pages (fs : list (Field Rec)) (st : Store) : outcome Store :=
  match fs with
  | [] => Ok st
  | f :: fs' =>
      let* st' := Field_Write f st in
      write_pages fs' st'
  end.

(** Every row group of the chain has as many column buffers as the root. *)
Definition same_columns (p : ParquetWriter) : Prop :=
  Forall (λ q, length (p_fields q) = length (p_fields p)) (chain p).

(** [shaped P p n]: the chain [p] holds [n] records in row groups of [P]:
    every row group but the last is full, the last holds the rest, and
    only the root can be empty. *)
Fixpoint shaped (P : Z) (p : ParquetWriter) (cnt : Z) : Prop :=
  p_max p = P ∧ length (p_fields p) = length Fields ∧
  match p_child p with
  | None => p_len p = cnt ∧ 0 ≤ cnt ≤ P
  | Some c => p_len p = P ∧ 1 ≤ cnt - P ∧ shaped P c (cnt - P)
  end.

End Writer.

(** ** The reader *)

Section Reader.
Context {C : Collaborator} {T : Template}.

(** [type ParquetReader struct]; the [Field]s of the map are pointers, so
    a [Read] or a [Scan] updates the entry. *)
Record ParquetReader : Type := mkParquetReader {
  pr_fields : gmap string (Field Rec);
  pr_index : Z;
  pr_cur : Z;
  pr_rows : Z;
  pr_offsets : gmap string (list Position);
  pr_r : Stream;
  pr_meta : Metadata
}.

(** [func getFields(ff []Field) map[string]Field]. *)
Definition getFields (ff : list (Field Rec)) : gmap string (Field Rec) :=
  fold_left (λ m f, <[Field_Name f := f]> m) ff ∅.

(** The values of type [func(p *ParquetReader)] of the file. *)
Inductive reader_option : Type :=
| readerIndex (i : Z).

Definition apply_reader_option (index : Z) (opt : reader_option) : Z :=
  match opt with
  | readerIndex i => i
  end.

Definition with_fields (pr : ParquetReader) (fs : gmap string (Field Rec))
    (r : Stream) : ParquetReader :=
  mkParquetReader fs (pr_index pr) (pr_cur pr) (pr_rows pr) (pr_offsets pr)
    r (pr_meta pr).

(** The inner loop of [NewParquetReader]: [for _, col := range rg.Columns]
    for the row group of index [i]. The result says whether the loop was
    left by [break]. *)
Fixpoint read_columns (fuel : nat) (i : nat) (cols : list ColumnChunk)
    (pr : ParquetReader) : outcome (bool * ParquetReader) :=
  match cols with
  | [] => Ok (false, pr)
  | col :: cols' =>
      match last (PathInSchema col) with
      | None => Panic
      | Some name =>
          match pr_fields pr !! name with
          | None => Err (unknown_field name)
          | Some f =>
              let offsets := default [] (pr_offsets pr !! Field_Name f) in
              if len offsets <=? pr_index pr then Ok (true, pr)
              else
                match offsets !! i with
                | None => Panic
                | Some o =>
                    match Field_Read fuel f (pr_meta pr) (pr_r pr) o with
                    | Ok (f', r') =>
                        read_columns fuel i cols'
                          (with_fields pr (<[name := f']> (pr_fields pr)) r')
                    | Err e => Err (unable_to_read_field (Field_Name f) e)
                    | Panic => Panic
                    | OutOfFuel => OutOfFuel
                    end
                end
          end
      end
  end.

(** The outer loop: [for i, rg := range pr.meta.RowGroups()]. *)
Fixpoint read_row_groups (fuel : nat) (i : nat) (rgs : list RowGroup)
    (pr : ParquetReader) : outcome ParquetReader :=
  match rgs with
  | [] => Ok pr
  | rg :: rgs' =>
      let* (_, pr') := read_columns fuel i (Columns rg) pr in
      read_row_groups fuel (S i) rgs' pr'
  end.

(** The reader as [NewParquetReader] has it when the loops start: the
    options applied, the footer read into [m], the offsets taken and the
    input at byte 4. *)
Definition reader_at_pages (opts : list reader_option) (m : Metadata)
    (offsets : gmap string (list Position)) (r : Stream) : ParquetReader :=
  mkParquetReader (getFields Fields) (fold_left apply_reader_option opts 0)
    0 (Rows m) offsets r m.

(** [func NewParquetReader(r io.ReadSeeker, opts ...func(p *ParquetReader))]. *)
Definition NewParquetReader (fuel : nat) (r : Stream) (opts : list reader_option)
  : outcome ParquetReader :=
  let m0 := parquet_New (map Field_Schema Fields) in
  let* (m, r1) := ReadFooter m0 r in
  let* offsets := Offsets m in
  let* r2 := Stream_Seek r1 4 in
  read_row_groups fuel 0 (RowGroups m) (reader_at_pages opts m offsets r2).

(** [func (p *ParquetReader) Rows() int64]. *)
Definition ParquetReader_Rows (p : ParquetReader) : Z := Rows (pr_meta p).

(** [func (p *ParquetReader) Next() bool]. *)
Definition ParquetReader_Next (p : ParquetReader) : bool * ParquetReader :=
  if pr_rows p <=? pr_cur p then (false, p)
  else (true, mkParquetReader (pr_fields p) (pr_index p) (pr_cur p + 1)
                (pr_rows p) (pr_offsets p) (pr_r p) (pr_meta p)).

(** [func (p *ParquetReader) Scan(x *T)]: [f.Scan(x)] for every field of
    the map. Go ranges over a map in an order of its choosing; here the
    order is that of [map_to_list]. *)
Definition ParquetReader_Scan (p : ParquetReader) (x : Rec)
  : outcome (ParquetReader * Rec) :=
  let step (acc : outcome (gmap string (Field Rec) * Rec)) (kf : string * Field Rec) :=
    let* (fs, x) := acc in
    let* (f', x') := Field_Scan (snd kf) x in
    Ok (<[fst kf := f']> fs, x') in
  let* (fs, x') := fold_left step (map_to_list (pr_fields p)) (Ok (pr_fields p, x)) in
  Ok (with_fields p fs (pr_r p), x').




(** What a caller does with a reader:
    [for p.Next() { var x T; p.Scan(&x); out = append(out, x) }], with
    [zero] the zero value of [T]. *)
Fixpoint ParquetReader_ReadAll (fuel : nat) (zero : Rec) (p : ParquetReader)
  : outcome (list Rec) :=
  match fuel with
  | O => OutOfFuel
  | S fuel' =>
      let '(more, p1) := ParquetReader_Next p in
      if more then
        let* (p2, x) := ParquetReader_Scan p1 zero in
        let* rest := ParquetReader_ReadAll fuel' zero p2 in
        Ok (x :: rest)
      else Ok []
  end.

(** A reader constructed over the bytes of a file, and every record
    scanned. *)
Definition read_file (fuel : nat) (file : list Z) (zero : Rec) : outcome (list Rec) :=
  let* pr := NewParquetReader fuel (mkStream file 0) [] in
  ParquetReader_ReadAll fuel zero pr.

End Reader.

(** [Scan] called [k] times in a row on one buffer and one record. *)
Fixpoint Scan_times {Rec : Type} (k : nat) (f : Field Rec) (r : Rec)
: outcome (Field Rec * Rec) :=
match k with
| O => Ok (f, r)
| S k' => let* (f', r') := Field_Scan f r in Scan_times k' f' r'
end.

(** ** A collaborator and templates to run the code on *)

Module Stored.

(** One page header as the collaborator was asked to write it:
    column, uncompressed size, compressed size, number of values. *)
Definition header_call : Type := (string * Z * Z * Z)%type.

(** Bit [i] of a bit-packed payload, least significant bit first. *)
Definition bit_at (rr : list Z) (i : nat) : bool :=
  Z.testbit (nth (i / 8) rr 0) (Z.of_nat (i mod 8)).

(** Modelled from the spec: [parquet.GetBools] is not in [cmd/parquetgen];
    booleans are bit-packed LSB-first, value [i] in bit [i % 8] of byte
    [i / 8], and [n] of them are decoded from the front of the payload. *)
Definition unpack (rr : list Z) (k : Z) : outcome (list bool) :=
  if k <? 0 then Panic
  else if k <=? 8 * len rr then Ok (map (bit_at rr) (seq 0 (Z.to_nat k)))
  else Err (collaborator_error "not enough data to decode all values").

(** Three little-endian [int32]: uncompressed size, compressed size,
    number of values. *)
Definition parse_header (r : Stream) : outcome (PageHeader * Stream) :=
  let '(b, r', err) := Stream_Read r 12 in
  match err with
  | Some e => Err e
  | None =>
      if (s_pos r' - s_pos r <? 12)%nat then Err io_ErrUnexpectedEOF
      else Ok (mkPageHeader (to_signed 32 (le_uint (take 4 (drop 4 b))))
                 (to_signed 32 (le_uint (take 4 (drop 8 b)))), r')
  end.

(** The number of levels as a little-endian [int32], then one byte per
    level. *)
Definition parse_levels (b : list Z) : outcome (list Z * Z) :=
  if (length b <? 4)%nat then Err io_ErrUnexpectedEOF
  else
    let k := Z.to_nat (le_uint (take 4 b)) in
    if (length b <? 4 + k)%nat then Err io_ErrUnexpectedEOF
    else Ok (take k (drop 4 b), Z.of_nat (4 + k)).

(** A collaborator that stores pages uncompressed and records the page
    headers it is asked to write. The footer that a reader finds (row
    groups, positions and number of rows) is given. *)
Definition collaborator (rgs : list RowGroup)
    (offs : gmap string (list Position)) (rows : Z) : Collaborator := {|
  Metadata := list header_call;
  snappy_Encode := λ b, b;
  snappy_Decode := λ b, Ok b;
  parquet_New := λ _, [];
  StartRowGroup := λ m _, m;
  page_header := λ m col dataLen compressedLen count,
    Ok (m ++ [(col, dataLen, compressedLen, count)],
        le_bytes 4 dataLen ++ le_bytes 4 compressedLen ++ le_bytes 4 count);
  footer := λ m, Ok (le_bytes 4 (len m) ++ le_bytes 4 4);
  levels := λ defs, Ok (le_bytes 4 (len defs) ++ defs);
  ReadLevels := parse_levels;
  GetBools := unpack;
  meta_PageHeader := λ _ r, parse_header r;
  ReadFooter := λ m r, Ok (m, r);
  Rows := λ _, rows;
  Offsets := λ _, Ok offs;
  RowGroups := λ _, rgs
|}.

(** The collaborator of a writer. *)
Definition writing : Collaborator := collaborator [] ∅ 0.

(** A record type with a required and two optional fields. *)
Record Person : Type := mkPerson {
  id : Z;
  nick : option (list Z);
  age : option Z
}.

Definition person : Template := {|
  Rec := Person;
  Fields :=
    [ NumField Int32
        (NewRequiredField id (λ x v, mkPerson v (nick x) (age x)) "id");
      StringOptionalField
        (NewOptionalField nick (λ x v, mkPerson (id x) v (age x)) "nick");
      NumOptionalField Uint32
        (NewOptionalField age (λ x v, mkPerson (id x) (nick x) v) "age") ]
|}.

(** A record type that is one required boolean, [flag]. *)
Definition flag : Template := {|
  Rec := bool;
  Fields := [ BoolField (NewRequiredField (λ x, x) (λ _ v, v) "flag") ]
|}.

Definition alice : Person := mkPerson 1 (Some [97]) None.
Definition bob : Person := mkPerson 2 None (Some 41).
Definition carol : Person := mkPerson 3 (Some []) (Some 7).

(** The value of an outcome that is [Ok], [d] otherwise. *)
Definition value {A : Type} (d : A) (m : outcome A) : A :=
  match m with
  | Ok a => a
  | _ => d
  end.

(** How many page headers were written for a column. *)
Definition pages_of (col : string) (m : list header_call) : nat :=
  length (filter (λ c, c.1.1.1 = col) m).

Definition empty_sink : Sink := mkSink [] None.

(** A writer of [Person] records with two rows per row group, and what it is
    after three records, after the flush and after [Close]. *)
Definition opened : outcome (@Handle writing person) :=
  @NewParquetWriter writing person empty_sink [MaxPageSize 2].
Definition h0 : @Handle writing person :=
  value (@mkHandle writing person (@mkParquetWriter person [] 0 None 0) []
           (mkWriteCounter 0 empty_sink)) opened.
Definition calls : list (@call person) :=
  [@call_Add person alice; @call_Add person bob; @call_Add person carol; @call_Write person].
Definition h1 : @Handle writing person := value h0 (@run_calls writing person 4 h0 calls).
Definition h2 : @Handle writing person := value h0 (@ParquetWriter_Close writing person h1).

(** The same writer after the three records, before the flush. *)
Definition filled : @Handle writing person :=
  value h0 (@run_calls writing person 4 h0 [@call_Add person alice; @call_Add person bob; @call_Add person carol]).

(** The optional column [age] after the three records, in one buffer, and
    the page that its [Write] produces. *)
Definition age_column : OptionalField Person Z :=
  fold_left OptionalField_Add [alice; bob; carol]
    (@NewOptionalField Person Z age (λ x v, mkPerson (id x) (nick x) v) "age").

(** A file of [flag] records written with one row per row group: the
    records [false] and [true], one flush, [Close]. *)
Definition flag_file : list Z :=
  let d := @mkHandle writing flag (@mkParquetWriter flag [] 0 None 0) []
             (mkWriteCounter 0 empty_sink) in
  let a := value d (@NewParquetWriter writing flag empty_sink [MaxPageSize 1]) in
  let b := value d (@run_calls writing flag 4 a
                      [@call_Add flag false; @call_Add flag true; @call_Write flag]) in
  data (wc_w (h_w (value d (@ParquetWriter_Close writing flag b)))).

Definition flag_column : ColumnChunk := mkColumnChunk ["flag"%string].

(** The footer of [flag_file] with one row group per flush: one column
    chunk of two values. *)
Definition per_flush : Collaborator :=
  collaborator [mkRowGroup [flag_column]] {[ "flag"%string := [mkPosition 2] ]} 2.

(** The footer of [flag_file] with one row group per page: two column
    chunks of one value. *)
Definition per_page : Collaborator :=
  collaborator [mkRowGroup [flag_column]; mkRowGroup [flag_column]]
    {[ "flag"%string := [mkPosition 1; mkPosition 1] ]} 2.



(** The optional column [age] as its constructor returns it. *)
Definition age_fresh : OptionalField Person Z :=
  @NewOptionalField Person Z age (λ x v, mkPerson (id x) (nick x) v) "age".

(** The file that [h2] wrote, and its footer with one row group per flush. *)
Definition person_file : list Z := data (wc_w (h_w h2)).

Definition person_footer : Collaborator :=
  collaborator
    [mkRowGroup [mkColumnChunk ["id"%string]; mkColumnChunk ["nick"%string];
                 mkColumnChunk ["age"%string]]]
    {[ "id"%string := [mkPosition 3]; "nick"%string := [mkPosition 3];
       "age"%string := [mkPosition 3] ]} 3.

End Stored.


(** Seventeen values alternating [true, false, ...], starting with [true]. *)
Definition alternating17 : list bool :=
[true; false; true; false; true; false; true; false;
 true; false; true; false; true; false; true; false; true].

(** Arithmetic with [/] and [mod] by a constant. *)
Ltac natdiv := zify; Z.to_euclidean_division_equations; lia.

(** ** Batches of records, faithful collaborators and fitting pages *)

(** The values that the Go type of a fixed-width column holds. *)
Definition in_range (t : numtype) (v : Z) : Prop :=
  match t with
  | Uint32 | Float32 => 0 ≤ v < 2 ^ 32
  | Int32 => - 2 ^ 31 ≤ v < 2 ^ 31
  | Int64 => - 2 ^ 63 ≤ v < 2 ^ 63
  | Uint64 => 0 ≤ v < 2 ^ 64
  end.

(** The definition level that [Add] appends for an extracted value. *)
Definition level_of {V : Type} (o : option V) : Z :=
  match o with
  | Some _ => 1
  | None => 0
  end.

Section BufferDefs.
Context {Rec : Type}.

(** [Add] of each record of a sequence to one column buffer, in order. *)
Definition Field_AddAll (f : Field Rec) (recs : list Rec) : Field Rec :=
  fold_left Field_Add recs f.

(** The record [dst] after the column's inject adapter is given what its
    extract adapter takes from [src]. *)
Definition Field_copy (f : Field Rec) (src dst : Rec) : Rec :=
  match f with
  | NumField _ f => r_read f dst (r_val f src)
  | BoolField f => r_read f dst (r_val f src)
  | StringField f => r_read f dst (r_val f src)
  | NumOptionalField _ f => o_read f dst (o_val f src)
  | BoolOptionalField f => o_read f dst (o_val f src)
  | StringOptionalField f => o_read f dst (o_val f src)
  end.

(** A column buffer as its constructor returns it. *)
Definition fresh (f : Field Rec) : Prop :=
  match f with
  | NumField _ f => r_vals f = []
  | BoolField f => r_vals f = []
  | StringField f => r_vals f = []
  | NumOptionalField _ f => o_defs f = [] ∧ o_vals f = []
  | BoolOptionalField f => o_defs f = [] ∧ o_vals f = []
  | StringOptionalField f => o_defs f = [] ∧ o_vals f = []
  end.

End BufferDefs.

Section HoldsDef.
Context {T : Template}.

(** [holds P p recs]: the chain [p] of row groups of [P] rows holds the
    records [recs] in order: the root's buffers are those of [Fields()] with
    the first [P] records added, and the child holds the others; the last
    row group holds what is left, at most [P] records. *)
Fixpoint holds (P : Z) (p : ParquetWriter) (recs : list Rec) : Prop :=
  p_max p = P ∧
  match p_child p with
  | None =>
      p_len p = len recs ∧ len recs ≤ P
      ∧ p_fields p = map (λ f, Field_AddAll f recs) Fields
  | Some c =>
      p_len p = P ∧ P < len recs
      ∧ p_fields p = map (λ f, Field_AddAll f (take (Z.to_nat P) recs)) Fields
      ∧ holds P c (drop (Z.to_nat P) recs)
  end.

End HoldsDef.

(** [wc'] has counted what was written since [wc]. *)
Definition counted (wc wc' : WriteCounter) : Prop :=
  wc_n wc' - wc_n wc = len (data (wc_w wc')) - len (data (wc_w wc)).

Section ReaderDefs.
Context {C : Collaborator} {T : Template}.

(** The results of [k] calls of [Next] in a row, and the reader after them. *)
Fixpoint Next_calls (k : nat) (p : ParquetReader) : list bool * ParquetReader :=
  match k with
  | O => ([], p)
  | S k' =>
      let '(b, p1) := ParquetReader_Next p in
      let '(bs, p2) := Next_calls k' p1 in
      (b :: bs, p2)
  end.

End ReaderDefs.

(** What the generated code needs of its collaborators to read what it
    wrote: [snappy.Decode] undoes [snappy.Encode]; [meta.PageHeader] reads
    the header that [meta.WritePageHeader] wrote for sizes and counts that
    fit an [int32], and leaves the input behind the header;
    [parquet.ReadLevels] reads the levels that [parquet.WriteLevels] wrote
    and says how many bytes they took; [parquet.GetBools] unpacks what the
    packing loop packed. *)
Record faithful (C : Collaborator) : Prop := mkfaithful {
  faithful_snappy : ∀ b, snappy_Decode (snappy_Encode b) = Ok b;
  faithful_header :
    ∀ m col dataLen compressedLen count m' hdr,
      page_header m col dataLen compressedLen count = Ok (m', hdr) →
      0 ≤ compressedLen < 2 ^ 31 → 0 ≤ count < 2 ^ 31 →
      ∀ mr before after,
        meta_PageHeader mr (mkStream (before ++ hdr ++ after) (length before))
        = Ok (mkPageHeader compressedLen count,
              mkStream (before ++ hdr ++ after) (length before + length hdr));
  faithful_levels :
    ∀ defs lv after,
      levels defs = Ok lv → len defs < 2 ^ 31 →
      ReadLevels (lv ++ after) = Ok (defs, len lv);
  faithful_bools :
    ∀ vals after, GetBools (rawBuf vals ++ after) (len vals) = Ok vals
}.

Section PageDefs.
Context {C : Collaborator} {T : Template}.

(** The payload and the number of values that [Write] of a required column
    hands to [doWrite]. *)
Definition required_payload (f : Field Rec) : list Z :=
  match f with
  | NumField t f => encode_nums t (r_vals f)
  | BoolField f => rawBuf (r_vals f)
  | StringField f => encode_strings (r_vals f)
  | _ => []
  end.

Definition required_count (f : Field Rec) : Z :=
  match f with
  | NumField _ f => len (r_vals f)
  | BoolField f => len (r_vals f)
  | StringField f => len (r_vals f)
  | _ => 0
  end.

Definition is_required (f : Field Rec) : Prop :=
  match f with
  | NumField _ _ | BoolField _ | StringField _ => True
  | _ => False
  end.

(** The encoded values, the levels and the number of levels that [Write] of
    an optional column hands to [doWrite]. *)
Definition optional_payload (f : Field Rec) : list Z :=
  match f with
  | NumOptionalField t f => encode_nums t (o_vals f)
  | BoolOptionalField f => rawBuf (o_vals f)
  | StringOptionalField f => encode_strings (o_vals f)
  | _ => []
  end.

Definition optional_defs (f : Field Rec) : list Z :=
  match f with
  | NumOptionalField _ f => o_defs f
  | BoolOptionalField f => o_defs f
  | StringOptionalField f => o_defs f
  | _ => []
  end.

Definition is_optional (f : Field Rec) : Prop :=
  match f with
  | NumOptionalField _ _ | BoolOptionalField _ | StringOptionalField _ => True
  | _ => False
  end.

(** A page that fits the [int32] sizes of a page header and holds at least
    one value. *)
Definition required_page_fits (f : Field Rec) : Prop :=
  is_required f ∧ len (snappy_Encode (required_payload f)) < 2 ^ 31
  ∧ 1 ≤ required_count f < 2 ^ 31.

Definition optional_page_fits (f : Field Rec) : Prop :=
  is_optional f ∧ 1 ≤ len (optional_defs f) < 2 ^ 31
  ∧ ∀ lv, levels (optional_defs f) = Ok lv →
          len (snappy_Encode (lv ++ optional_payload f)) < 2 ^ 31.

End PageDefs.

Section ColumnDefs.
Context {C : Collaborator} {T : Template}.

(** The field of a record is a value of the column's Go type: within the
    range of the integer type, or a string shorter than 2^31 bytes, whose
    length fits the [int32] written before it. *)
Definition Field_fits (f : Field Rec) (r : Rec) : Prop :=
  match f with
  | NumField t f => in_range t (r_val f r)
  | StringField f => len (r_val f r) < 2 ^ 31
  | NumOptionalField t f => ∀ v, o_val f r = Some v → in_range t v
  | StringOptionalField f => ∀ s, o_val f r = Some s → len s < 2 ^ 31
  | BoolField _ | BoolOptionalField _ => True
  end.

Definition is_bool (f : Field Rec) : Prop :=
  match f with
  | BoolField _ | BoolOptionalField _ => True
  | _ => False
  end.

Definition page_fits (f : Field Rec) : Prop :=
  required_page_fits f ∨ optional_page_fits f.

End ColumnDefs.

Module Sample.

(** The optional column [age] of [Person], empty. *)
Definition age_field : Field Stored.Person := NumOptionalField Uint32 Stored.age_fresh.

(** The required column [id] of [Person], empty. *)
Definition id_field : Field Stored.Person :=
  NumField Int32
    (NewRequiredField Stored.id
       (λ x v, Stored.mkPerson v (Stored.nick x) (Stored.age x)) "id").

(** Two row groups of records. *)
Definition chunks : list (list Stored.Person) :=
  [[Stored.alice; Stored.bob]; [Stored.carol]].

(** A writer's store before anything is written, and after the pages of
    [age] for the two row groups. *)
Definition blank : @Store Stored.writing :=
  @mkStore Stored.writing [] (mkWriteCounter 0 Stored.empty_sink).
Definition age_pages : @Store Stored.writing :=
  Stored.value blank
    (@write_pages Stored.writing Stored.person (Field_AddAll age_field <$> chunks) blank).



End Sample.

(** * Properties *)

(** ** Column buffers: append and drain *)

Section ColumnFacts.
Context {Rec V : Type}.
Implicit Types (f : OptionalField Rec V) (r : Rec).

Lemma nVals_app (ds es : list Z) : nVals (ds ++ es) = nVals ds + nVals es.
Proof. induction ds as [|d ds IH]; simpl; [done | rewrite IH; lia]. Qed.

Lemma len_app {A : Type} (l k : list A) : len (l ++ k) = len l + len k.
Proof. unfold len. rewrite length_app. lia. Qed.

(** One [Add] appends one definition level, and a value exactly when the
    level is 1. *)
Lemma OptionalField_Add_step f r :
  len (o_defs (OptionalField_Add f r)) = len (o_defs f) + 1 ∧
  nVals (o_defs (OptionalField_Add f r)) - len (o_vals (OptionalField_Add f r))
  = nVals (o_defs f) - len (o_vals f).
Proof.
  unfold OptionalField_Add. destruct (o_val f r); simpl;
    rewrite nVals_app, !len_app; simpl; unfold len; simpl; lia.
Qed.

(** C3. Starting from the empty buffer that the constructor returns (or
    that a reset installs), after the [Add] of every record of any
    sequence the definition levels are as many as the records added, and
    the levels equal to 1 are as many as the values. *)
Theorem optional_buffer_invariant (val : Rec → option V)
    (read : Rec → option V → Rec) (col : string) (recs : list Rec) :
  let f := fold_left OptionalField_Add recs (NewOptionalField val read col) in
  len (o_defs f) = len recs ∧ nVals (o_defs f) = len (o_vals f).
Proof.
  induction recs as [|r recs IH] using rev_ind; simpl.
  - done.
  - rewrite fold_left_app. simpl. simpl in IH. destruct IH as [IH1 IH2].
    pose proof (OptionalField_Add_step
      (fold_left OptionalField_Add recs (NewOptionalField val read col)) r) as [S1 S2].
    rewrite len_app. unfold len at 3. simpl. lia.
Qed.

End ColumnFacts.

Section ScanFacts.
Context {Rec : Type}.

Lemma Scan_drained (f : Field Rec) (r : Rec) :
  drained f → Field_Scan f r = Ok (f, r).
Proof.
  destruct f as [t f|t f|f|f|f|f]; simpl; intros E;
    unfold RequiredField_Scan, OptionalField_Scan; rewrite E; reflexivity.
Qed.

(** C10. [Scan] on a column buffer whose tested sequence is empty ([vals]
    of a required column, [defs] of an optional one) returns the buffer
    and the record as they were, whatever the inject adapter is; so does
    any number of further calls. *)
Theorem Scan_empty_is_noop (f : Field Rec) (r : Rec) :
  drained f →
  Field_Scan f r = Ok (f, r) ∧ ∀ k, Scan_times k f r = Ok (f, r).
Proof.
  intros E. split; [by apply Scan_drained |].
  induction k as [|k IH]; simpl; [done |].
  rewrite Scan_drained by done. simpl. exact IH.
Qed.

End ScanFacts.

(** ** The bit-packed boolean payload *)

Lemma pack_loop_length vals i buf : length (pack_loop vals i buf) = length buf.
Proof.
revert i buf. induction vals as [|v vals IH]; intros; simpl; [done|].
rewrite IH. destruct v; [apply length_alter | done].
Qed.

Lemma testbit_one_shift (a b : nat) :
Z.testbit (Z.shiftl 1 (Z.of_nat a)) (Z.of_nat b) = bool_decide (a = b).
Proof.
rewrite Z.shiftl_spec by lia.
case_bool_decide as E.
- subst. replace (Z.of_nat b - Z.of_nat b) with 0 by lia. reflexivity.
- destruct (decide (a < b)%nat).
  + destruct (Z.of_nat b - Z.of_nat a) eqn:D; try lia. reflexivity.
  + rewrite Z.testbit_neg_r by lia. done.
Qed.

Lemma nth_alter_Z (g : Z → Z) (i k : nat) (buf : list Z) :
(i < length buf)%nat →
nth k (alter g i buf) 0 = if decide (k = i) then g (nth k buf 0) else nth k buf 0.
Proof.
intros Hi. rewrite !nth_lookup. case_decide as E.
- subst. rewrite list_lookup_alter_eq. destruct (lookup_lt_is_Some_2 buf i Hi) as [x ->]. done.
- rewrite list_lookup_alter_ne by done. done.
Qed.

Lemma pack_loop_bit vals : ∀ i buf k j,
(j < 8)%nat → (i + length vals ≤ 8 * length buf)%nat →
Z.testbit (nth k (pack_loop vals i buf) 0) (Z.of_nat j)
= Z.testbit (nth k buf 0) (Z.of_nat j)
  || (bool_decide (i ≤ 8 * k + j)%nat && nth (8 * k + j - i) vals false).
Proof.
induction vals as [|v vals IH]; intros i buf k j Hj Hlen; cbn [pack_loop].
- assert (nth (8 * k + j - i) (@nil bool) false = false) as -> by (by destruct (8 * k + j - i)%nat).
  by rewrite andb_false_r, orb_false_r.
- cbn [length] in Hlen. rewrite IH; [| done | destruct v; rewrite ?length_alter; lia].
  destruct (decide (8 * k + j = i)%nat) as [E|E].
  + assert (k = (i / 8)%nat ∧ j = (i mod 8)%nat) as [Ek Ej] by natdiv.
    replace (8 * k + j - i)%nat with 0%nat by lia.
    rewrite (bool_decide_eq_false_2 (S i ≤ 8 * k + j)%nat) by lia.
    rewrite (bool_decide_eq_true_2 (i ≤ 8 * k + j)%nat) by lia.
    cbn [nth andb]. rewrite orb_false_r. destruct v; [| by rewrite orb_false_r].
    rewrite nth_alter_Z by natdiv. rewrite decide_True by done.
    rewrite Z.lor_spec, <- Ej, testbit_one_shift.
    rewrite bool_decide_eq_true_2 by done. done.
  + assert (Z.testbit (nth k (if v then alter (λ b : Z, Z.lor b (Z.shiftl 1 (Z.of_nat (i mod 8)))) (i / 8)%nat buf else buf) 0) (Z.of_nat j)
            = Z.testbit (nth k buf 0) (Z.of_nat j)) as ->.
    { destruct v; [|done]. rewrite nth_alter_Z by natdiv.
      case_decide as Ek; [|done]. rewrite Z.lor_spec, testbit_one_shift.
      rewrite bool_decide_eq_false_2; [by rewrite orb_false_r|]. 
      intros Ej. apply E. subst k. rewrite <- Ej. natdiv. }
    f_equal. destruct (decide (i < 8 * k + j)%nat).
    * rewrite !bool_decide_eq_true_2 by lia.
      replace (8 * k + j - i)%nat with (S (8 * k + j - S i)) by lia. done.
    * rewrite !bool_decide_eq_false_2 by lia. done.
Qed.

Lemma pack_loop_high vals : ∀ i buf k j,
(8 ≤ j)%nat →
Z.testbit (nth k (pack_loop vals i buf) 0) (Z.of_nat j)
= Z.testbit (nth k buf 0) (Z.of_nat j).
Proof.
induction vals as [|v vals IH]; intros i buf k j Hj; cbn [pack_loop]; [done|].
rewrite IH by done. destruct v; [|done].
rewrite !nth_lookup. destruct (decide (k = (i / 8)%nat)) as [->|Ek].
- rewrite list_lookup_alter_eq. destruct (buf !! (i / 8)%nat); [|done]. change (Z.testbit (Z.lor z (Z.shiftl 1 (Z.of_nat (i mod 8)))) (Z.of_nat j) = Z.testbit z (Z.of_nat j)).
  rewrite Z.lor_spec, testbit_one_shift. rewrite bool_decide_eq_false_2; [by rewrite orb_false_r|].
  natdiv.
- rewrite list_lookup_alter_ne by done. done.
Qed.

Lemma nth_replicate_0 (m k : nat) : nth k (replicate m 0) 0 = 0.
Proof.
rewrite nth_lookup. destruct (replicate m 0 !! k) eqn:E; [|done].
apply lookup_replicate in E as [-> _]. done.
Qed.

Section BoolPayload.
Context {C : Collaborator} {T : Template}.

(** C8. The payload that [BoolField.Write] hands to [doWrite] for [N]
    values has [(N + 7) / 8] bytes; value [i] is bit [i % 8] of byte
    [i / 8]; every bit at a position from [N] on, and every bit above the
    eighth of a byte, is 0; seventeen alternating values starting with
    [true] give the bytes 0x55, 0x55, 0x01. *)
Theorem bool_payload_layout (vals : list bool) :
  length (rawBuf vals) = ((length vals + 7) / 8)%nat
  ∧ (∀ i, (i < length vals)%nat →
       Z.testbit (nth (i / 8) (rawBuf vals) 0) (Z.of_nat (i mod 8)) = nth i vals false)
  ∧ (∀ k j, (length vals ≤ 8 * k + j)%nat →
       Z.testbit (nth k (rawBuf vals) 0) (Z.of_nat j) = false)
  ∧ (∀ k j, (8 ≤ j)%nat → Z.testbit (nth k (rawBuf vals) 0) (Z.of_nat j) = false)
  ∧ rawBuf alternating17 = [85; 85; 1]
  ∧ (∀ (col : string) (val : Rec → bool) (read : Rec → bool → Rec) (st : Store),
       Field_Write (BoolField (mkRequiredField col vals val read)) st
       = RequiredField_doWrite col st (rawBuf vals) (len vals)).
Proof.
  assert (Hhi : ∀ k j, (8 ≤ j)%nat →
            Z.testbit (nth k (rawBuf vals) 0) (Z.of_nat j) = false).
  { intros k j Hj. unfold rawBuf. rewrite pack_loop_high by done.
    rewrite nth_replicate_0. apply Z.testbit_0_l. }
  assert (Hlo : ∀ k j, (j < 8)%nat →
            Z.testbit (nth k (rawBuf vals) 0) (Z.of_nat j) = nth (8 * k + j) vals false).
  { intros k j Hj. unfold rawBuf. rewrite pack_loop_bit; [| done | rewrite length_replicate; natdiv].
    rewrite nth_replicate_0, Z.testbit_0_l, bool_decide_eq_true_2 by lia.
    cbn [orb andb]. f_equal. lia. }
  split; [| split; [| split; [| split; [| split]]]].
  - unfold rawBuf. rewrite pack_loop_length. apply length_replicate.
  - intros i Hi. rewrite Hlo by natdiv. f_equal. natdiv.
  - intros k j Hge. destruct (decide (j < 8)%nat).
    + rewrite Hlo by done. apply nth_overflow. lia.
    + apply Hhi. lia.
  - exact Hhi.
  - reflexivity.
  - reflexivity.
Qed.
End BoolPayload.

(** ** Pages *)

Section BindFacts.
Lemma bind_Ok {A B} (m : outcome A) (k : A → outcome B) (b : B) :
  bind m k = Ok b → ∃ a, m = Ok a ∧ k a = Ok b.
Proof. destruct m; simpl; intros E; try discriminate. eauto. Qed.
End BindFacts.

Section PageFacts.
Context {C : Collaborator} {T : Template}.

Lemma write_or_fail_buffer (wc : WriteCounter) (p : list Z) :
  room (wc_w wc) = None →
  write_or_fail wc p
  = Ok (mkWriteCounter (wc_n wc + len p) (mkSink (data (wc_w wc) ++ p) None)).
Proof.
  intros E. unfold write_or_fail, WriteCounter_Write, Sink_Write. rewrite E. done.
Qed.

Lemma write_or_fail_appends (wc wc' : WriteCounter) (p : list Z) :
  write_or_fail wc p = Ok wc' → data (wc_w wc') = data (wc_w wc) ++ p.
Proof.
  unfold write_or_fail, WriteCounter_Write, Sink_Write.
  destruct (room (wc_w wc)) as [k|]; [destruct (length p <=? k)%nat |];
    simpl; intros E; inversion E; done.
Qed.

Lemma OptionalField_fill_eq (defs vals : list Z) :
  OptionalField_fill defs vals
  = let* lv := levels defs in
    Ok (mkWriteCounter (len lv + len vals) (mkSink (lv ++ vals) None)).
Proof.
  unfold OptionalField_fill, WriteLevels.
  destruct (levels defs) as [lv| | |]; simpl; try done.
Qed.

(** C4, as the code has it. The uncompressed size that
    [OptionalField.doWrite] passes to [WritePageHeader] is [wc.n], and
    [wc] has counted the level bytes and the encoded value bytes: the size
    is the length of the whole uncompressed payload, levels and values. *)
Theorem optional_page_size (defs : list Z) (col : string) (st : Store)
    (vals : list Z) (count : Z) :
  OptionalField_doWrite defs col st vals count
  = let* lv := levels defs in
    let compressed := snappy_Encode (lv ++ vals) in
    let* st1 := WritePageHeader st col (len lv + len vals) (len compressed) (len defs) in
    let* wc := write_or_fail (out st1) compressed in
    Ok (mkStore (meta st1) wc).
Proof.
  unfold OptionalField_doWrite. rewrite OptionalField_fill_eq.
  destruct (levels defs) as [lv| | |]; simpl; done.
Qed.
End PageFacts.

(** C4, as stated, fails: one definition level in five level bytes and one
  [uint32] value give the recorded uncompressed size 9, not 5. *)
Lemma optional_page_size_counterexample :
let C := Stored.writing in
let st := @mkStore C [] (mkWriteCounter 0 (mkSink [] None)) in
∃ lv size st',
  @levels C [1] = Ok lv
  ∧ @OptionalField_doWrite C [1] "age" st [41; 0; 0; 0] 1 = Ok st'
  ∧ @meta C st' = [("age"%string, size, size, 1)]
  ∧ size = len lv + 4
  ∧ size ≠ len lv.
Proof.
eexists _, _, _. split; [reflexivity|]. split; [reflexivity|].
split; [reflexivity|]. split; [reflexivity|]. discriminate.
Qed.

(** ** The flush order and the number of pages *)

Section ChainFacts.
Context {C : Collaborator} {T : Template}.

(** Induction along the chain of row groups. *)
Lemma chain_ind (P : ParquetWriter → Prop) :
  (∀ fs l mx, P (mkParquetWriter fs l None mx)) →
  (∀ fs l c mx, P c → P (mkParquetWriter fs l (Some c) mx)) →
  ∀ p, P p.
Proof.
  intros Hleaf Hnode. fix IH 1. intros [fs l [c|] mx].
  - apply Hnode, IH.
  - apply Hleaf.
Qed.

Lemma write_pages_app (fs gs : list (Field Rec)) (st : Store) :
  write_pages (fs ++ gs) st = let* st' := write_pages fs st in write_pages gs st'.
Proof.
  revert st. induction fs as [|f fs IH]; intros st; simpl; [done|].
  destruct (Field_Write f st); simpl; auto.
Qed.

Lemma column_cons (i : nat) (p : ParquetWriter) :
  column i p
  = match p_fields p !! i with Some f => [f] | None => [] end
    ++ match p_child p with Some c => column i c | None => [] end.
Proof.
  unfold column. destruct p as [fs l [c|] mx]; simpl;
    destruct (fs !! i); simpl; done.
Qed.

Lemma Write_children_pages (i : nat) (c : ParquetWriter) (st : Store) :
  Forall (λ q, (i < length (p_fields q))%nat) (chain c) →
  Write_children i c st = write_pages (column i c) st.
Proof.
  revert st. induction c as [fs l mx|fs l c mx IH] using chain_ind; intros st Hall.
  - apply Forall_cons in Hall as [Hi _]. simpl in Hi.
    destruct (lookup_lt_is_Some_2 fs i Hi) as [f Ef].
    rewrite column_cons. simpl. rewrite Ef. simpl.
    destruct (Field_Write f st); done.
  - simpl in Hall. apply Forall_cons in Hall as [Hi Hall]. simpl in Hi.
    destruct (lookup_lt_is_Some_2 fs i Hi) as [f Ef].
    rewrite column_cons. simpl. rewrite Ef. simpl.
    destruct (Field_Write f st) as [st'| | |]; simpl; try done.
    apply IH, Hall.
Qed.

Lemma same_columns_child (p c : ParquetWriter) (i : nat) :
  same_columns p → p_child p = Some c → (i < length (p_fields p))%nat →
  Forall (λ q, (i < length (p_fields q))%nat) (chain c).
Proof.
  unfold same_columns. intros Hs Ec Hi. destruct p as [fs l ch mx]. simpl in *.
  subst ch. apply Forall_cons in Hs as [_ Hs].
  eapply Forall_impl; [exact Hs|]. simpl. intros q Eq. lia.
Qed.

Lemma Write_fields_pages (p : ParquetWriter) :
  same_columns p →
  ∀ (fs : list (Field Rec)) (i : nat) (st : Store),
    drop i (p_fields p) = fs →
    Write_fields p i fs st
    = write_pages (flat_map (λ i, column i p) (seq i (length fs))) st.
Proof.
  intros Hs. induction fs as [|f fs IH]; intros i st Hd; [done|].
  assert (p_fields p !! i = Some f) as Ef.
  { rewrite <- (Nat.add_0_r i), <- lookup_drop, Hd. done. }
  assert (drop (S i) (p_fields p) = fs) as Hd'.
  { rewrite <- (drop_drop _ 1 i)%nat || idtac.
    replace (S i) with (i + 1)%nat by lia. rewrite <- drop_drop, Hd. done. }
  cbn [length seq flat_map Write_fields]. rewrite write_pages_app.
  rewrite column_cons, Ef. cbn [app write_pages].
  destruct (Field_Write f st) as [st1| | |]; cbn [bind]; try done.
  destruct (p_child p) as [c|] eqn:Ec.
  - rewrite (Write_children_pages i c st1).
    + destruct (write_pages (column i c) st1); cbn [bind]; try done. by apply IH.
    + eapply same_columns_child; eauto. by eapply lookup_lt_Some.
  - cbn [write_pages bind]. by apply IH.
Qed.

Lemma column_length (p : ParquetWriter) (i : nat) :
  same_columns p → (i < length (p_fields p))%nat →
  length (column i p) = length (chain p).
Proof.
  unfold same_columns, column. intros Hs Hi.
  induction Hs as [|q qs Hq Hs IH]; [done|]. simpl.
  destruct (lookup_lt_is_Some_2 (p_fields q) i ltac:(lia)) as [f ->]. simpl.
  f_equal. exact IH.
Qed.

Lemma column_lookup (p : ParquetWriter) (i j : nat) :
  same_columns p → (i < length (p_fields p))%nat →
  column i p !! j = chain p !! j ≫= λ q, p_fields q !! i.
Proof.
  unfold same_columns, column. intros Hs Hi. revert j.
  induction Hs as [|q qs Hq Hs IH]; intros j; [done|]. simpl.
  destruct (lookup_lt_is_Some_2 (p_fields q) i ltac:(lia)) as [f Ef].
  rewrite Ef. simpl. destruct j as [|j]; simpl; [done|]. apply IH.
Qed.

(** Blocks of one length [k], one after the other: element [j] of block
    [i] is at index [i * k + j]. *)
Lemma lookup_flat_map_blocks {A : Type} (g : nat → list A) (k : nat) :
  ∀ (cnt s i j : nat),
    (∀ i, (i < cnt)%nat → length (g (s + i)%nat) = k) →
    (i < cnt)%nat → (j < k)%nat →
    flat_map g (seq s cnt) !! (i * k + j)%nat = g (s + i)%nat !! j.
Proof.
  induction cnt as [|cnt IH]; intros s i j Hlen Hi Hj; [lia|].
  cbn [seq flat_map]. destruct i as [|i].
  - rewrite lookup_app_l.
    + by rewrite Nat.add_0_r.
    + specialize (Hlen 0%nat). rewrite Nat.add_0_r in Hlen. rewrite Hlen; lia.
  - rewrite lookup_app_r.
    + pose proof (Hlen 0%nat ltac:(lia)) as Hz. rewrite Nat.add_0_r in Hz. rewrite Hz.
      replace (S i * k + j - k)%nat with (i * k + j)%nat by lia.
      rewrite (IH (S s) i j); [f_equal; f_equal; lia | | lia | lia].
      intros i' Hi'. replace (S s + i')%nat with (s + S i')%nat by lia.
      apply Hlen. lia.
    + pose proof (Hlen 0%nat ltac:(lia)) as Hz. rewrite Nat.add_0_r in Hz. rewrite Hz. lia.
Qed.

Lemma length_flat_map_blocks {A : Type} (g : nat → list A) (k : nat) :
  ∀ (cnt s : nat),
    (∀ i, (i < cnt)%nat → length (g (s + i)%nat) = k) →
    length (flat_map g (seq s cnt)) = (cnt * k)%nat.
Proof.
  induction cnt as [|cnt IH]; intros s Hlen; [done|].
  cbn [seq flat_map]. rewrite length_app, IH.
  - pose proof (Hlen 0%nat ltac:(lia)) as Hz. rewrite Nat.add_0_r in Hz. lia.
  - intros i Hi. replace (S s + i)%nat with (s + S i)%nat by lia. apply Hlen. lia.
Qed.

(** C2. For a writer whose row groups all have the columns of the root
    (as every writer built by [Add] has), [Write] runs [f.Write(p.w, p.meta)]
    on the buffers in the order of [flush_order]: with [k] row groups in
    the chain, the page of column [i] and row group [j] is the
    [(i * k + j)]-th, so the root's page of a column comes first, then the
    children's in chain order, and all of them before column [i + 1]. *)
Theorem flush_columns_then_row_groups (h : Handle) :
  same_columns (h_p h) →
  let p := h_p h in
  let k := length (chain p) in
  (∀ st, Write_fields p 0 (p_fields p) st = write_pages (flush_order p) st)
  ∧ ParquetWriter_Write h
    = (let* st := write_pages (flush_order p) (mkStore (h_meta h) (h_w h)) in
       Ok (mkHandle (mkParquetWriter Fields 0 None (p_max p))
             (StartRowGroup (meta st) (schema_of Fields)) (out st)))
  ∧ length (flush_order p) = (length (p_fields p) * k)%nat
  ∧ (∀ i j, (i < length (p_fields p))%nat → (j < k)%nat →
       flush_order p !! (i * k + j)%nat = chain p !! j ≫= λ q, p_fields q !! i).
Proof.
  intros Hs p k.
  assert (Hw : ∀ st, Write_fields p 0 (p_fields p) st = write_pages (flush_order p) st).
  { intros st. by apply Write_fields_pages. }
  split; [exact Hw|]. split; [|split].
  - unfold ParquetWriter_Write. fold p. rewrite Hw. done.
  - unfold flush_order.
    rewrite (length_flat_map_blocks (λ i, column i p) k (length (p_fields p)) 0); [done|].
    intros i' Hi'. by apply column_length.
  - intros i j Hi Hj. unfold flush_order.
    rewrite (lookup_flat_map_blocks (λ i, column i p) k (length (p_fields p)) 0 i j);
      [| | done | done].
    + by apply column_lookup.
    + intros i' Hi'. by apply column_length.
Qed.

Lemma shaped_same_columns (P : Z) (p : ParquetWriter) (cnt : Z) :
  shaped P p cnt → same_columns p.
Proof.
  unfold same_columns.
  assert (∀ p cnt, shaped P p cnt →
            Forall (λ q, length (p_fields q) = length Fields) (chain p)) as Hall.
  { clear p cnt. intros p. induction p as [fs l mx|fs l c mx IH] using chain_ind;
      intros cnt Hp; simpl in Hp; destruct Hp as (Hm & Hf & Hc); simpl in *.
    - repeat constructor. done.
    - destruct Hc as (_ & _ & Hc). constructor; [done|]. eapply IH, Hc. }
  intros Hp. pose proof (Hall p cnt Hp) as Hq.
  destruct p as [fs l ch mx]. simpl in Hp. destruct Hp as (_ & Hf & _).
  simpl in *. rewrite Hf. exact Hq.
Qed.

Lemma shaped_chain_length (P : Z) (p : ParquetWriter) (cnt : Z) :
  1 ≤ P → shaped P p cnt →
  Z.of_nat (length (chain p)) = Z.max 1 ((cnt + P - 1) / P).
Proof.
  intros HP. revert cnt.
  induction p as [fs l mx|fs l c mx IH] using chain_ind;
    intros cnt Hp; simpl in Hp; destruct Hp as (Hm & Hf & Hc); simpl in *.
  - destruct Hc as [_ Hc].
    assert ((cnt + P - 1) / P < 2) by (apply Z.div_lt_upper_bound; lia). lia.
  - destruct Hc as (_ & Hge & Hc). rewrite Nat2Z.inj_succ, (IH _ Hc).
    replace (cnt + P - 1) with ((cnt - P + P - 1) + 1 * P) by lia.
    rewrite Z.div_add by lia.
    assert (1 ≤ (cnt - P + P - 1) / P) by (apply Z.div_le_lower_bound; lia). lia.
Qed.

Lemma shaped_chain_bound (P : Z) (p : ParquetWriter) (cnt : Z) :
  1 ≤ P → shaped P p cnt → Z.of_nat (length (chain p)) ≤ Z.max 1 cnt.
Proof.
  intros HP. revert cnt.
  induction p as [fs l mx|fs l c mx IH] using chain_ind;
    intros cnt Hp; simpl in Hp; destruct Hp as (Hm & Hf & Hc); simpl in *.
  - lia.
  - destruct Hc as (_ & Hge & Hc). specialize (IH _ Hc). lia.
Qed.

(** [Add] returns, given fuel for the chain and the child it may create,
    and keeps the shape. *)
Lemma Add_shaped (P : Z) (rec : Rec) :
  1 ≤ P →
  ∀ (p : ParquetWriter) (cnt : Z) (fuel : nat),
    shaped P p cnt → (length (chain p) < fuel)%nat →
    ∃ p', ParquetWriter_Add fuel p rec = Ok p' ∧ shaped P p' (cnt + 1).
Proof.
  intros HP p. induction p as [fs l mx|fs l c mx IH] using chain_ind;
    intros cnt fuel Hp Hfuel; simpl in Hp; destruct Hp as (Hm & Hf & Hc); simpl in *.
  - destruct Hc as [-> Hc]. subst mx.
    destruct fuel as [|fuel]; [lia|]. cbn [ParquetWriter_Add p_len p_max p_child].
    destruct (Z.eqb_spec cnt P) as [->|Hne].
    + destruct fuel as [|fuel]; [lia|].
      cbn [ParquetWriter_Add new_child p_len p_max p_child p_fields].
      destruct (Z.eqb_spec 0 P) as [E0|_]; [lia|]. cbn [bind].
      eexists. split; [reflexivity|]. simpl.
      rewrite length_map. repeat split; try done; lia.
    + eexists. split; [reflexivity|]. simpl.
      rewrite length_map. repeat split; try done; lia.
  - destruct Hc as (-> & Hge & Hc). subst mx.
    destruct fuel as [|fuel]; [lia|]. cbn [ParquetWriter_Add p_len p_max p_child].
    rewrite Z.eqb_refl.
    destruct (IH (cnt - P) fuel Hc ltac:(lia)) as (c' & Ec & Hc').
    rewrite Ec. cbn [bind]. eexists. split; [reflexivity|]. simpl.
    repeat split; try done; try lia.
    replace (cnt + 1 - P) with (cnt - P + 1) by lia. exact Hc'.
Qed.

Lemma AddAll_shaped (P : Z) :
  1 ≤ P →
  ∀ (recs : list Rec) (p : ParquetWriter) (cnt : Z) (fuel : nat),
    0 ≤ cnt → shaped P p cnt → (Z.to_nat cnt + length recs < fuel)%nat →
    ∃ p', ParquetWriter_AddAll fuel p recs = Ok p' ∧ shaped P p' (cnt + len recs).
Proof.
  intros HP. induction recs as [|rec recs IH]; intros p cnt fuel Hc Hp Hfuel.
  - exists p. split; [done|]. unfold len. simpl. by rewrite Z.add_0_r.
  - cbn [ParquetWriter_AddAll]. simpl in Hfuel.
    pose proof (shaped_chain_bound P p cnt HP Hp) as Hb.
    destruct (Add_shaped P rec HP p cnt fuel Hp ltac:(lia)) as (p1 & E1 & Hp1).
    rewrite E1. cbn [bind].
    destruct (IH p1 (cnt + 1) fuel ltac:(lia) Hp1 ltac:(lia)) as (p' & E' & Hp').
    exists p'. split; [done|].
    replace (cnt + len (rec :: recs)) with (cnt + 1 + len recs); [done|].
    unfold len. simpl. lia.
Qed.

(** C6, as the code has it. After [N] records added to a fresh writer with
    [max = P >= 1], [Add] having enough fuel to return, one [Write] writes
    for every column [max(1, ceil(N / P))] pages: [ceil(N / P)] for
    [N >= 1], and one page, of the empty root, for [N = 0]. *)
Theorem pages_per_column (P : Z) (recs : list Rec) (fuel : nat) :
  1 ≤ P → (length recs < fuel)%nat →
  ∃ p,
    ParquetWriter_AddAll fuel (mkParquetWriter Fields 0 None P) recs = Ok p
    ∧ (∀ st, Write_fields p 0 (p_fields p) st = write_pages (flush_order p) st)
    ∧ length (p_fields p) = length Fields
    ∧ ∀ i, (i < length Fields)%nat →
        len (column i p) = Z.max 1 ((len recs + P - 1) / P).
Proof.
  intros HP Hfuel.
  destruct (AddAll_shaped P HP recs (mkParquetWriter Fields 0 None P) 0 fuel)
    as (p & E & Hp); [lia | simpl; repeat split; try done; lia | simpl; lia |].
  exists p. rewrite Z.add_0_l in Hp.
  pose proof (shaped_same_columns P p _ Hp) as Hs.
  split; [done|]. split; [intros st; by apply Write_fields_pages|].
  assert (length (p_fields p) = length Fields) as Hf.
  { destruct p as [fs l ch mx]. simpl in Hp. by destruct Hp as (_ & Hf & _). }
  split; [done|].
  intros i Hi. unfold len at 1. rewrite column_length by (done || lia).
  by eapply shaped_chain_length.
Qed.

End ChainFacts.

(** ** The file envelope *)

Section Envelope.
Context {C : Collaborator} {T : Template}.

Lemma extends_refl wc : extends wc wc.
Proof. exists []. by rewrite app_nil_r. Qed.

Lemma extends_trans a b c : extends a b → extends b c → extends a c.
Proof. intros [x Ex] [y Ey]. exists (x ++ y). by rewrite Ey, Ex, app_assoc. Qed.

Lemma write_or_fail_extends wc wc' p : write_or_fail wc p = Ok wc' → extends wc wc'.
Proof. intros E. exists p. by apply write_or_fail_appends. Qed.

Lemma WritePageHeader_extends st st' col a b c :
  WritePageHeader st col a b c = Ok st' → extends (out st) (out st').
Proof.
  unfold WritePageHeader. intros E.
  apply bind_Ok in E as ([m hdr] & _ & E).
  apply bind_Ok in E as (wc & Ew & E). inversion E; subst; simpl.
  by eapply write_or_fail_extends.
Qed.

Lemma RequiredField_doWrite_extends col st vals count st' :
  RequiredField_doWrite col st vals count = Ok st' → extends (out st) (out st').
Proof.
  unfold RequiredField_doWrite. intros E.
  apply bind_Ok in E as (st1 & E1 & E).
  apply bind_Ok in E as (wc & Ew & E). inversion E; subst; simpl.
  eapply extends_trans; [by eapply WritePageHeader_extends|].
  by eapply write_or_fail_extends.
Qed.

Lemma OptionalField_doWrite_extends defs col st vals count st' :
  OptionalField_doWrite defs col st vals count = Ok st' → extends (out st) (out st').
Proof.
  unfold OptionalField_doWrite. intros E.
  apply bind_Ok in E as (wc0 & _ & E).
  apply bind_Ok in E as (st1 & E1 & E).
  apply bind_Ok in E as (wc & Ew & E). inversion E; subst; simpl.
  eapply extends_trans; [by eapply WritePageHeader_extends|].
  by eapply write_or_fail_extends.
Qed.

Lemma Field_Write_extends f st st' :
  Field_Write f st = Ok st' → extends (out st) (out st').
Proof.
  destruct f; simpl; intros E;
    (by eapply RequiredField_doWrite_extends) || (by eapply OptionalField_doWrite_extends).
Qed.

Lemma Write_children_extends i c : ∀ st st',
  Write_children i c st = Ok st' → extends (out st) (out st').
Proof.
  induction c as [fs l mx|fs l c mx IH] using chain_ind; intros st st' E; simpl in E;
    destruct (fs !! i) as [f|]; try discriminate;
    apply bind_Ok in E as (st1 & E1 & E).
  - inversion E; subst. by eapply Field_Write_extends.
  - eapply extends_trans; [by eapply Field_Write_extends | by eapply IH].
Qed.

Lemma Write_fields_extends p fs : ∀ i st st',
  Write_fields p i fs st = Ok st' → extends (out st) (out st').
Proof.
  induction fs as [|f fs IH]; intros i st st' E; simpl in E.
  - inversion E. apply extends_refl.
  - apply bind_Ok in E as (st1 & E1 & E).
    apply bind_Ok in E as (st2 & E2 & E).
    eapply extends_trans; [by eapply Field_Write_extends|].
    eapply extends_trans; [| by eapply IH].
    destruct (p_child p) as [c|].
    + by eapply Write_children_extends.
    + inversion E2. apply extends_refl.
Qed.

Lemma run_calls_extends fuel cs : ∀ h h',
  run_calls fuel h cs = Ok h' → extends (h_w h) (h_w h').
Proof.
  induction cs as [|[rec|] cs IH]; intros h h' E; simpl in E.
  - inversion E. apply extends_refl.
  - apply bind_Ok in E as (h1 & E1 & E).
    unfold Handle_Add in E1. apply bind_Ok in E1 as (p & _ & E1).
    inversion E1; subst. by apply (IH _ _ E).
  - apply bind_Ok in E as (h1 & E1 & E).
    unfold ParquetWriter_Write in E1. apply bind_Ok in E1 as (st & Es & E1).
    inversion E1; subst.
    eapply extends_trans; [| by apply (IH _ _ E)]. simpl.
    apply Write_fields_extends in Es. exact Es.
Qed.

Lemma apply_options_extends opts : ∀ b b',
  apply_options b opts = Ok b' → extends (b_w b) (b_w b').
Proof.
  induction opts as [|opt opts IH]; intros b b' E; simpl in E.
  - inversion E. apply extends_refl.
  - apply bind_Ok in E as (b1 & E1 & E).
    eapply extends_trans; [| by eapply IH].
    destruct opt; simpl in E1.
    + inversion E1. apply extends_refl.
    + inversion E1. apply extends_refl.
    + apply bind_Ok in E1 as (wc & Ew & E1). inversion E1; subst. simpl.
      by eapply write_or_fail_extends.
Qed.

(** The options applied, the first [begin] among them wrote the magic. *)
Lemma apply_options_begin opts : ∀ b b',
  apply_options b opts = Ok b' → begin ∈ opts →
  ∃ x, data (wc_w (b_w b')) = data (wc_w (b_w b)) ++ PAR1 ++ x.
Proof.
  induction opts as [|opt opts IH]; intros b b' E Hin; [by apply elem_of_nil in Hin|].
  simpl in E. apply bind_Ok in E as (b1 & E1 & E).
  destruct opt; simpl in E1.
  - inversion E1; subst. apply elem_of_cons in Hin as [?|Hin]; [done|].
    destruct (IH _ _ E Hin) as [x Ex]. by exists x.
  - inversion E1; subst. apply elem_of_cons in Hin as [?|Hin]; [done|].
    destruct (IH _ _ E Hin) as [x Ex]. by exists x.
  - apply bind_Ok in E1 as (wc & Ew & E1). inversion E1; subst.
    apply write_or_fail_appends in Ew.
    destruct (apply_options_extends _ _ _ E) as [x Ex]. simpl in Ex.
    exists x. by rewrite Ex, Ew, app_assoc.
Qed.

(** C9. Whatever the options, the records added and the flushes in
    between, when [NewParquetWriter], every call and [Close] have returned
    without error, the bytes written to the sink are the magic [PAR1],
    then pages and footer, then [PAR1] again. *)
Theorem file_envelope (sink : Sink) (opts : list writer_option) (fuel : nat)
    (cs : list call) (h0 h1 h2 : Handle) :
  NewParquetWriter sink opts = Ok h0 →
  run_calls fuel h0 cs = Ok h1 →
  ParquetWriter_Close h1 = Ok h2 →
  ∃ body, data (wc_w (h_w h2)) = data sink ++ PAR1 ++ body ++ PAR1.
Proof.
  intros E0 E1 E2.
  unfold NewParquetWriter, newParquetWriter in E0.
  apply bind_Ok in E0 as (b & Eb & E0). inversion E0; subst; clear E0.
  apply apply_options_begin in Eb as [x Ex]; [| apply elem_of_app; right; by left].
  simpl in Ex.
  apply run_calls_extends in E1 as [y Ey]. simpl in Ey.
  unfold ParquetWriter_Close, Footer in E2.
  apply bind_Ok in E2 as (wc & Ef & E2).
  apply bind_Ok in Ef as (ft & _ & Ef).
  apply bind_Ok in E2 as (wc' & Em & E2). inversion E2; subst; clear E2. simpl.
  apply write_or_fail_appends in Ef, Em.
  exists (x ++ y ++ ft). rewrite Em, Ef, Ey, Ex. by rewrite <- !app_assoc.
Qed.
End Envelope.

(** ** Reading an optional column *)

Section ReadFacts.
Context {C : Collaborator} {T : Template}.

Lemma decode_nums_length (t : numtype) (k : nat) : ∀ bs,
  length (decode_nums t k bs) = k.
Proof. induction k as [|k IH]; intros bs; simpl; [done | by rewrite IH]. Qed.


(** With page headers of at least one value each, and collaborators that
    return, [doRead] of an optional column finishes within
    [pos.N - nRead] rounds. *)
Lemma OptionalField_doRead_returns (m : Metadata) (pos : Position) :
  (∀ r ph r', meta_PageHeader m r = Ok (ph, r') → 1 ≤ NumValues ph) →
  (∀ r, meta_PageHeader m r ≠ OutOfFuel) →
  (∀ b, snappy_Decode b ≠ OutOfFuel) →
  (∀ b, ReadLevels b ≠ OutOfFuel) →
  ∀ (fuel : nat) (r : Stream) (nRead : Z) (acc defs : list Z),
    (Z.to_nat (pos_N pos - nRead) ≤ fuel)%nat →
    OptionalField_doRead fuel m r pos nRead acc defs ≠ OutOfFuel.
Proof.
  intros Hph Hp Hs Hl. induction fuel as [|fuel IH]; intros r nRead acc defs Hfuel;
    cbn [OptionalField_doRead];
    destruct (Z.ltb_spec nRead (pos_N pos)); try done; try (exfalso; lia).
  pose proof (Hp r) as Hp'.
  destruct (meta_PageHeader m r) as [[ph r1]| | |] eqn:Eph; cbn [bind]; try done.
  destruct (CompressedPageSize ph <? 0); [done|].
  destruct (Stream_Read r1 (Z.to_nat (CompressedPageSize ph))) as [[compressed r2] [e|]];
    [done|].
  pose proof (Hs compressed) as Hs'.
  destruct (snappy_Decode compressed) as [uncompressed| | |]; cbn [bind]; try done.
  pose proof (Hl uncompressed) as Hl'.
  destruct (ReadLevels uncompressed) as [[lv l]| | |]; cbn [bind]; try done.
  destruct ((l <? 0) || (len uncompressed <? l)); [done|].
  apply IH. specialize (Hph _ _ _ Eph). lia.
Qed.





End ReadFacts.

(** ** Opening a reader *)

Section ReaderFacts.
Context {C : Collaborator} {T : Template}.















End ReaderFacts.

(** ** The round trip *)

Section RoundTrip.
Context {C : Collaborator} {T : Template}.

(** [BoolField.Read] assigns what it decoded: the values that the buffer
    held are gone. *)
Lemma BoolField_Read_replaces (fuel : nat) (f : RequiredField Rec bool)
    (vals : list bool) (m : Metadata) (r : Stream) (pos : Position) :
  BoolField_Read fuel (mkRequiredField (r_col f) vals (r_val f) (r_read f)) m r pos
  = BoolField_Read fuel (mkRequiredField (r_col f) [] (r_val f) (r_read f)) m r pos.
Proof. reflexivity. Qed.

(** [Uint32Field.Read] and the other fixed-width columns append. *)
Lemma NumField_Read_appends (fuel : nat) (t : numtype) (f f' : RequiredField Rec Z)
    (m : Metadata) (r r' : Stream) (pos : Position) :
  NumField_Read fuel t f m r pos = Ok (f', r') →
  ∃ v, r_vals f' = r_vals f ++ v ∧ len v = pos_N pos.
Proof.
  unfold NumField_Read. intros E. apply bind_Ok in E as ([rr r1] & _ & E).
  destruct (Z.ltb_spec (pos_N pos) 0); [discriminate|].
  unfold binary_Read in E. destruct (_ <=? _)%nat; [|discriminate].
  inversion E; subst; clear E. simpl. eexists. split; [done|].
  unfold len. rewrite decode_nums_length. lia.
Qed.

(** With a page size of 0 the root is full from the start, and so is every
    child that [Add] creates: the recursion [p.child.Add(rec)] does not end. *)
Lemma Add_page_size_zero (fuel : nat) (rec : Rec) :
  ParquetWriter_Add fuel (mkParquetWriter Fields 0 None 0) rec = OutOfFuel.
Proof.
  induction fuel as [|fuel IH]; [done|].
  change (ParquetWriter_Add (S fuel) (mkParquetWriter Fields 0 None 0) rec)
    with (let* c' := ParquetWriter_Add fuel (mkParquetWriter Fields 0 None 0) rec in
          Ok (mkParquetWriter Fields 0 (Some c') 0)).
  by rewrite IH.
Qed.

End RoundTrip.

(** C1, at the failing input. Two records, [false] and [true], are written
    to a file of one required boolean column with one row per row group, and
    the file is read back: [false, false] when the footer has one position
    per flush, whose two pages are decoded as one bit stream, and
    [true, false] when it has one position per page, the second [Read]
    replacing what the first one loaded. Neither is [false, true]. A file of
    fixed-width and string columns with the same layout is read back as
    written. *)
Theorem required_bool_two_pages_not_read_back :
  @read_file Stored.per_flush Stored.flag 5 Stored.flag_file false = Ok [false; false]
  ∧ @read_file Stored.per_page Stored.flag 5 Stored.flag_file false = Ok [true; false]
  ∧ @read_file Stored.person_footer Stored.person 5 Stored.person_file
      (Stored.mkPerson 0 None None)
    = Ok [Stored.alice; Stored.bob; Stored.carol].
Proof. repeat split; vm_compute; reflexivity. Qed.

(** ** The theorems at concrete inputs *)



Lemma Ok_value {A : Type} (d : A) (m : outcome A) :
  is_ok m = true → m = Ok (Stored.value d m).
Proof. destruct m; try discriminate. done. Defined.


Lemma flush_columns_then_row_groups_witness :
  @same_columns Stored.person (h_p Stored.filled)
  ∧ @flush_order Stored.person (h_p Stored.filled) !! 3%nat
    = @chain Stored.person (h_p Stored.filled) !! 1%nat ≫= λ q, p_fields q !! 1%nat.
Proof.
  assert (Hs : @same_columns Stored.person (h_p Stored.filled))
    by (vm_compute; repeat constructor).
  split; [exact Hs|].
  exact (proj2 (proj2 (proj2
    (@flush_columns_then_row_groups Stored.writing Stored.person Stored.filled Hs)))
    1%nat 1%nat ltac:(vm_compute; lia) ltac:(vm_compute; lia)).
Defined.

Lemma Scan_empty_is_noop_witness :
  drained (BoolField (@NewRequiredField bool bool (λ x, x) (λ _ v, v) "flag"))
  ∧ Field_Scan (BoolField (@NewRequiredField bool bool (λ x, x) (λ _ v, v) "flag")) true
    = Ok (BoolField (@NewRequiredField bool bool (λ x, x) (λ _ v, v) "flag"), true).
Proof.
  split; [reflexivity|].
  exact (proj1 (Scan_empty_is_noop
    (BoolField (@NewRequiredField bool bool (λ x, x) (λ _ v, v) "flag")) true eq_refl)).
Defined.

Lemma bool_payload_layout_witness :
  (16 < length alternating17)%nat
  ∧ Z.testbit (nth (16 / 8) (rawBuf alternating17) 0) (Z.of_nat (16 mod 8))
    = nth 16 alternating17 false.
Proof.
  assert (Hi : (16 < length alternating17)%nat) by (vm_compute; lia).
  split; [exact Hi|].
  exact (proj1 (proj2 (@bool_payload_layout Stored.writing Stored.flag alternating17))
           16%nat Hi).
Defined.

Lemma pages_per_column_witness :
  1 ≤ 2 ∧ (length [Stored.alice; Stored.bob; Stored.carol] < 4)%nat
  ∧ ∃ p,
      @ParquetWriter_AddAll Stored.person 4
        (@mkParquetWriter Stored.person (@Fields Stored.person) 0 None 2)
        [Stored.alice; Stored.bob; Stored.carol] = Ok p
      ∧ (∀ st, @Write_fields Stored.writing Stored.person p 0 (p_fields p) st
               = @write_pages Stored.writing Stored.person (flush_order p) st)
      ∧ length (p_fields p) = length (@Fields Stored.person)
      ∧ ∀ i, (i < length (@Fields Stored.person))%nat →
          len (column i p)
          = Z.max 1 ((len [Stored.alice; Stored.bob; Stored.carol] + 2 - 1) / 2).
Proof.
  assert (H1 : 1 ≤ 2) by lia.
  assert (H2 : (length [Stored.alice; Stored.bob; Stored.carol] < 4)%nat) by (simpl; lia).
  split; [exact H1|]. split; [exact H2|].
  exact (@pages_per_column Stored.writing Stored.person 2
           [Stored.alice; Stored.bob; Stored.carol] 4%nat H1 H2).
Defined.

(** C6, as stated, fails for [N = 0]: a fresh writer that is flushed writes
    one page for every column, and [ceil(0 / 2)] is 0. *)
Lemma pages_per_column_counterexample :
  ∃ h,
    @ParquetWriter_Write Stored.writing Stored.person Stored.h0 = Ok h
    ∧ Stored.pages_of "id" (h_meta h) = 1%nat
    ∧ Stored.pages_of "nick" (h_meta h) = 1%nat
    ∧ Stored.pages_of "age" (h_meta h) = 1%nat
    ∧ (0 + 2 - 1) / 2 = 0.
Proof.
  exists (Stored.value Stored.h0
            (@ParquetWriter_Write Stored.writing Stored.person Stored.h0)).
  split; [apply Ok_value; vm_compute; reflexivity|].
  repeat split; vm_compute; reflexivity.
Qed.

Lemma file_envelope_witness :
  @NewParquetWriter Stored.writing Stored.person Stored.empty_sink [MaxPageSize 2]
  = Ok Stored.h0
  ∧ @run_calls Stored.writing Stored.person 4 Stored.h0 Stored.calls = Ok Stored.h1
  ∧ @ParquetWriter_Close Stored.writing Stored.person Stored.h1 = Ok Stored.h2
  ∧ ∃ body, data (wc_w (h_w Stored.h2)) = data Stored.empty_sink ++ PAR1 ++ body ++ PAR1.
Proof.
  assert (E0 : @NewParquetWriter Stored.writing Stored.person Stored.empty_sink
                 [MaxPageSize 2] = Ok Stored.h0)
    by (apply Ok_value; vm_compute; reflexivity).
  assert (E1 : @run_calls Stored.writing Stored.person 4 Stored.h0 Stored.calls
               = Ok Stored.h1)
    by (apply Ok_value; vm_compute; reflexivity).
  assert (E2 : @ParquetWriter_Close Stored.writing Stored.person Stored.h1
               = Ok Stored.h2)
    by (apply Ok_value; vm_compute; reflexivity).
  split; [exact E0|]. split; [exact E1|]. split; [exact E2|].
  exact (@file_envelope Stored.writing Stored.person _ _ _ _ _ _ _ E0 E1 E2).
Defined.





(** ** Round trips of the encodings *)

Lemma le_bytes_length (w : nat) : ∀ z, length (le_bytes w z) = w.
Proof. induction w as [|w IH]; intros z; simpl; [done | by rewrite IH]. Qed.

Lemma le_bytes_byte (w : nat) : ∀ z, Forall (λ b, 0 ≤ b < 256) (le_bytes w z).
Proof.
  induction w as [|w IH]; intros z; simpl; constructor; [|apply IH].
  change 255 with (Z.ones 8). rewrite Z.land_ones by lia.
  apply Z.mod_pos_bound. lia.
Qed.

Lemma le_uint_bits (w : nat) : ∀ z k, 0 ≤ k →
  Z.testbit (le_uint (le_bytes w z)) k
  = (k <? 8 * Z.of_nat w) && Z.testbit z k.
Proof.
  induction w as [|w IH]; intros z k Hk.
  - simpl. rewrite Z.testbit_0_l. destruct (Z.ltb_spec k (8 * Z.of_nat 0)); [lia | done].
  - cbn [le_bytes le_uint]. rewrite Z.lor_spec.
    change 255 with (Z.ones 8). rewrite Z.land_spec.
    destruct (Z.ltb_spec k 8) as [Hlt|Hge].
    + rewrite Z.ones_spec_low by lia. rewrite Z.shiftl_spec_low by lia.
      rewrite andb_true_r, orb_false_r.
      destruct (Z.ltb_spec k (8 * Z.of_nat (S w))); [done | lia].
    + rewrite Z.ones_spec_high by lia. rewrite andb_false_r, orb_false_l.
      rewrite Z.shiftl_spec by lia. rewrite IH by lia.
      rewrite Z.shiftr_spec by lia. replace (k - 8 + 8) with k by lia.
      f_equal. destruct (Z.ltb_spec (k - 8) (8 * Z.of_nat w)), (Z.ltb_spec k (8 * Z.of_nat (S w))); lia || done.
Qed.

Lemma le_uint_le_bytes (w : nat) (z : Z) :
  le_uint (le_bytes w z) = z mod 2 ^ (8 * Z.of_nat w).
Proof.
  apply Z.bits_inj'. intros k Hk. rewrite le_uint_bits by done.
  destruct (Z.ltb_spec k (8 * Z.of_nat w)).
  - rewrite Z.mod_pow2_bits_low by lia. done.
  - rewrite Z.mod_pow2_bits_high by lia. done.
Qed.

Lemma decode_num_le_bytes (t : numtype) (v : Z) :
  in_range t v → decode_num t (le_bytes (width t) v) = v.
Proof.
  intros Hr. unfold decode_num. rewrite le_uint_le_bytes.
  destruct t; simpl in *; unfold to_signed.
  - apply Z.mod_small. lia.
  - change (2 ^ (8 * Z.of_nat 4)) with (2 ^ 32). change (2 ^ (32 - 1)) with (2 ^ 31).
    destruct (Z.ltb_spec (v mod 2 ^ 32) (2 ^ 31)); Z.to_euclidean_division_equations; lia.
  - change (2 ^ (8 * Z.of_nat 8)) with (2 ^ 64). change (2 ^ (64 - 1)) with (2 ^ 63).
    destruct (Z.ltb_spec (v mod 2 ^ 64) (2 ^ 63)); Z.to_euclidean_division_equations; lia.
  - apply Z.mod_small. lia.
  - apply Z.mod_small. lia.
Qed.

Lemma encode_nums_length (t : numtype) (vals : list Z) :
  length (encode_nums t vals) = (length vals * width t)%nat.
Proof.
  unfold encode_nums. induction vals as [|v vals IH]; simpl; [done|].
  rewrite length_app, le_bytes_length, IH. lia.
Qed.

Lemma decode_nums_encode_nums (t : numtype) (vals rest : list Z) :
  Forall (in_range t) vals →
  decode_nums t (length vals) (encode_nums t vals ++ rest) = vals.
Proof.
  unfold encode_nums. induction 1 as [|v vals Hv _ IH]; [done|].
  cbn [length flat_map decode_nums]. rewrite <- app_assoc.
  rewrite take_app_length' by (by rewrite le_bytes_length).
  rewrite drop_app_length' by (by rewrite le_bytes_length).
  rewrite decode_num_le_bytes by done. by rewrite IH.
Qed.

Lemma binary_Read_encode_nums (t : numtype) (vals rest : list Z) :
  Forall (in_range t) vals →
  binary_Read t (encode_nums t vals ++ rest) (length vals) = (vals, None).
Proof.
  intros Hr. unfold binary_Read.
  destruct (Nat.leb_spec (length vals * width t) (length (encode_nums t vals ++ rest)))
    as [_|Hlt].
  - by rewrite decode_nums_encode_nums.
  - rewrite length_app, encode_nums_length in Hlt. lia.
Qed.

(** What [binary.Write] wrote, [binary.Read] reads back: the values of a
    fixed-width column take [width] bytes each, every byte in [0, 256), and
    are decoded to themselves, whatever follows them in the buffer. *)
Theorem binary_round_trip (t : numtype) (vals rest : list Z) :
  Forall (in_range t) vals →
  binary_Read t (encode_nums t vals ++ rest) (length vals) = (vals, None)
  ∧ len (encode_nums t vals) = Z.of_nat (width t) * len vals
  ∧ Forall (λ b, 0 ≤ b < 256) (encode_nums t vals).
Proof.
  intros Hr. split; [|split].
  - by apply binary_Read_encode_nums.
  - unfold len. rewrite encode_nums_length. lia.
  - unfold encode_nums. clear Hr. induction vals as [|v vals IH]; simpl; [constructor|].
    apply Forall_app. split; [apply le_bytes_byte | exact IH].
Qed.

Section StringFacts.
Context {C : Collaborator} {T : Template}.

Lemma binary_Read_int32_length (s rest : list Z) :
  len s < 2 ^ 31 →
  binary_Read_int32 (le_bytes 4 (len s) ++ s ++ rest) = Ok (len s, s ++ rest).
Proof.
  intros Hs. unfold binary_Read_int32.
  rewrite length_app, le_bytes_length. cbn [Nat.leb].
  rewrite take_app_length' by (by rewrite le_bytes_length).
  rewrite drop_app_length' by (by rewrite le_bytes_length).
  change (to_signed 32 (le_uint (le_bytes 4 (len s))))
    with (decode_num Int32 (le_bytes (width Int32) (len s))).
  rewrite decode_num_le_bytes; [done|].
  unfold len in *. simpl. lia.
Qed.

Lemma Buffer_Read_exact (s rest : list Z) :
  Buffer_Read (s ++ rest) (length s) = Ok (s, rest).
Proof.
  unfold Buffer_Read.
  assert (take (length s) (s ++ rest)
          ++ replicate (length s - length (s ++ rest)) 0 = s) as E1.
  { rewrite take_app_length, length_app.
    replace (length s - (length s + length rest))%nat with 0%nat by lia.
    apply app_nil_r. }
  assert (drop (length s) (s ++ rest) = rest) as E2 by apply drop_app_length.
  destruct (s ++ rest) eqn:E, (length s) eqn:El; rewrite ?E1, ?E2; try done.
  destruct s; [done | discriminate].
Qed.

Lemma StringField_Read_loop_encoded (vals : list (list Z)) :
  Forall (λ s, len s < 2 ^ 31) vals →
  ∀ (rest : list Z) (acc : list (list Z)),
    StringField_Read_loop (length vals) (encode_strings vals ++ rest) acc
    = Ok (acc ++ vals).
Proof.
  induction 1 as [|s vals Hs _ IH]; intros rest acc.
  - simpl. by rewrite app_nil_r.
  - cbn [length StringField_Read_loop encode_strings flat_map].
    rewrite <- !app_assoc. rewrite binary_Read_int32_length by done. cbn [bind].
    destruct (Z.ltb_spec (len s) 0) as [Hneg|_]; [unfold len in Hneg; lia|].
    replace (Z.to_nat (len s)) with (length s) by (unfold len; lia).
    rewrite Buffer_Read_exact. cbn [bind].
    fold (encode_strings vals). rewrite IH. by rewrite <- app_assoc.
Qed.

Lemma StringOptionalField_Read_loop_encoded (os : list (option (list Z))) :
  Forall (λ s, len s < 2 ^ 31) (omap id os) →
  ∀ (before rest : list Z) (acc : list (list Z)),
    StringOptionalField_Read_loop (length os) (length before)
      (before ++ map level_of os) (encode_strings (omap id os) ++ rest) acc
    = Ok (acc ++ omap id os).
Proof.
  induction os as [|o os IH]; intros Hs before rest acc.
  - simpl. by rewrite app_nil_r.
  - cbn [length StringOptionalField_Read_loop map].
    rewrite lookup_app_r by lia. rewrite Nat.sub_diag. cbn [lookup list_lookup].
    destruct o as [s|].
    + change (omap id (Some s :: os)) with (s :: omap id os) in Hs |- *.
      apply Forall_cons in Hs as [Hs Hrest].
      change (level_of (Some s)) with 1. change (1 =? 0) with false. cbn iota.
      cbn [encode_strings flat_map]. rewrite <- !app_assoc.
      rewrite binary_Read_int32_length by done. cbn [bind].
      destruct (Z.ltb_spec (len s) 0) as [Hneg|_]; [unfold len in Hneg; lia|].
      replace (Z.to_nat (len s)) with (length s) by (unfold len; lia).
      rewrite Buffer_Read_exact. cbn [bind].
      fold (encode_strings (omap id os)).
      replace (before ++ 1 :: map level_of os)
        with ((before ++ [1]) ++ map level_of os) by (by rewrite <- app_assoc).
      replace (S (length before)) with (length (before ++ [1]))
        by (rewrite length_app; simpl; lia).
      rewrite IH by done. by rewrite <- app_assoc.
    + change (omap id (None :: os)) with (omap id os) in Hs |- *.
      change (level_of (@None (list Z))) with 0. change (0 =? 0) with true. cbn iota.
      replace (before ++ 0 :: map level_of os)
        with ((before ++ [0]) ++ map level_of os) by (by rewrite <- app_assoc).
      replace (S (length before)) with (length (before ++ [0]))
        by (rewrite length_app; simpl; lia).
      apply IH. done.
Qed.

(** What [StringField.Write] encoded, the loop of [StringField.Read]
    decodes, the empty string included, whatever follows in the buffer; and
    with the definition levels that [Add] appended for a sequence of
    extracted values, the loop of [StringOptionalField.Read] decodes the
    present strings and skips the absent ones. *)
Theorem string_round_trip (os : list (option (list Z))) (rest : list Z) :
  Forall (λ s, len s < 2 ^ 31) (omap id os) →
  StringField_Read_loop (length (omap id os)) (encode_strings (omap id os) ++ rest) []
  = Ok (omap id os)
  ∧ StringOptionalField_Read_loop (length os) 0 (map level_of os)
      (encode_strings (omap id os) ++ rest) []
    = Ok (omap id os).
Proof.
  intros Hs. split.
  - by rewrite StringField_Read_loop_encoded.
  - exact (StringOptionalField_Read_loop_encoded os Hs [] rest []).
Qed.

End StringFacts.

(** ** Column buffers: first in, first out *)

Section BufferFacts.
Context {Rec : Type}.

Lemma RequiredField_AddAll {V : Type} (recs : list Rec) : ∀ f : RequiredField Rec V,
  fold_left RequiredField_Add recs f
  = mkRequiredField (r_col f) (r_vals f ++ map (r_val f) recs) (r_val f) (r_read f).
Proof.
  induction recs as [|r recs IH]; intros [col vals val read]; simpl.
  - by rewrite app_nil_r.
  - rewrite IH. simpl. by rewrite <- app_assoc.
Qed.

Lemma OptionalField_AddAll {V : Type} (recs : list Rec) : ∀ f : OptionalField Rec V,
  fold_left OptionalField_Add recs f
  = mkOptionalField (o_defs f ++ map (λ r, level_of (o_val f r)) recs) (o_col f)
      (o_vals f ++ omap (o_val f) recs) (o_val f) (o_read f).
Proof.
  induction recs as [|r recs IH]; intros [defs col vals val read]; simpl.
  - by rewrite !app_nil_r.
  - rewrite IH. unfold OptionalField_Add. simpl.
    destruct (val r) as [v|]; simpl; by rewrite <- ?app_assoc.
Qed.

Lemma Field_AddAll_shape (recs : list Rec) (f : Field Rec) :
  Field_AddAll f recs
  = match f with
    | NumField t f => NumField t (fold_left RequiredField_Add recs f)
    | BoolField f => BoolField (fold_left RequiredField_Add recs f)
    | StringField f => StringField (fold_left RequiredField_Add recs f)
    | NumOptionalField t f => NumOptionalField t (fold_left OptionalField_Add recs f)
    | BoolOptionalField f => BoolOptionalField (fold_left OptionalField_Add recs f)
    | StringOptionalField f => StringOptionalField (fold_left OptionalField_Add recs f)
    end.
Proof.
  unfold Field_AddAll. revert f.
  induction recs as [|r recs IH]; intros f; [by destruct f|].
  simpl. rewrite IH. by destruct f.
Qed.

Lemma Required_first_in_first_out {V : Type} (f : RequiredField Rec V)
    (r : Rec) (recs : list Rec) (x : Rec) :
  r_vals f = [] →
  RequiredField_Scan (fold_left RequiredField_Add (r :: recs) f) x
  = (fold_left RequiredField_Add recs f, r_read f x (r_val f r)).
Proof.
  intros E. rewrite !RequiredField_AddAll, E. reflexivity.
Qed.

Lemma Optional_first_in_first_out {V : Type} (f : OptionalField Rec V)
    (r : Rec) (recs : list Rec) (x : Rec) :
  o_defs f = [] → o_vals f = [] →
  OptionalField_Scan (fold_left OptionalField_Add (r :: recs) f) x
  = Ok (fold_left OptionalField_Add recs f, o_read f x (o_val f r)).
Proof.
  intros E1 E2. rewrite !OptionalField_AddAll, E1, E2.
  unfold OptionalField_Scan. simpl. destruct (o_val f r); reflexivity.
Qed.

(** Appends and drains are first in, first out. On a buffer that was empty
    before a sequence of records was added, [Scan] gives the target record
    the field of the first record added, and leaves the buffer as if only
    the others had been added; it does not panic. *)
Theorem first_in_first_out (f : Field Rec) (r : Rec) (recs : list Rec) (x : Rec) :
  fresh f →
  Field_Scan (Field_AddAll f (r :: recs)) x
  = Ok (Field_AddAll f recs, Field_copy f r x).
Proof.
  intros Hf. rewrite !Field_AddAll_shape.
  destruct f as [t f|t f|f|f|f|f]; simpl in Hf; cbn [Field_Scan Field_copy].
  - by rewrite Required_first_in_first_out.
  - destruct Hf. by rewrite Optional_first_in_first_out.
  - by rewrite Required_first_in_first_out.
  - destruct Hf. by rewrite Optional_first_in_first_out.
  - by rewrite Required_first_in_first_out.
  - destruct Hf. by rewrite Optional_first_in_first_out.
Qed.

(** [Scan] of an optional column panics exactly when the first level is 1
    and there is no value left. *)
Theorem optional_Scan_panics {V : Type} (f : OptionalField Rec V) (x : Rec) :
  OptionalField_Scan f x = Panic
  ↔ ∃ defs, o_defs f = 1 :: defs ∧ o_vals f = [].
Proof.
  unfold OptionalField_Scan. destruct (o_defs f) as [|d defs] eqn:Ed.
  - split; [discriminate | by intros (? & ? & _)].
  - destruct (Z.eqb_spec d 1) as [->|Hd].
    + destruct (o_vals f) eqn:Ev.
      * split; [intros _; by exists defs | done].
      * split; [discriminate | by intros (? & _ & ?)].
    + split; [discriminate|]. intros (defs' & E & _). inversion E. done.
Qed.

(** [Scan] of an optional column whose levels equal to 1 are as many as
    its values does not panic and leaves a buffer of which the same holds. *)
Theorem optional_Scan_keeps_invariant {V : Type} (f : OptionalField Rec V) (x : Rec) :
  nVals (o_defs f) = len (o_vals f) →
  ∃ f' x', OptionalField_Scan f x = Ok (f', x')
           ∧ nVals (o_defs f') = len (o_vals f').
Proof.
  unfold OptionalField_Scan. intros Hinv.
  destruct (o_defs f) as [|d defs] eqn:Ed.
  { exists f, x. split; [done|]. by rewrite Ed. }
  simpl in Hinv. destruct (Z.eqb_spec d 1) as [->|Hd].
  - destruct (o_vals f) as [|v vals] eqn:Ev.
    + unfold len in Hinv. simpl in Hinv.
      assert (0 ≤ nVals defs); [|lia].
      clear. induction defs as [|d defs IH]; simpl; [lia|]. destruct (d =? 1); lia.
    + eexists _, _. split; [done|]. simpl. unfold len in *. simpl in Hinv. lia.
  - eexists _, _. split; [done|]. simpl. lia.
Qed.

End BufferFacts.

(** ** The chain holds the records *)

Section HoldsFacts.
Context {C : Collaborator} {T : Template}.

Lemma holds_shaped (P : Z) (p : ParquetWriter) : ∀ recs,
  0 ≤ P → holds P p recs → shaped P p (len recs).
Proof.
  induction p as [fs l mx|fs l c mx IH] using chain_ind; intros recs HP Hh;
    simpl in Hh; simpl.
  - destruct Hh as (Hm & Hl & Hle & Hf). repeat split; try done.
    + rewrite Hf. by rewrite length_map.
    + unfold len. lia.
  - destruct Hh as (Hm & Hl & Hlt & Hf & Hc). repeat split; try done.
    + rewrite Hf. by rewrite length_map.
    + lia.
    + apply IH in Hc; [|done].
      replace (len recs - P) with (len (drop (Z.to_nat P) recs)); [done|].
      unfold len in *. rewrite length_drop. lia.
Qed.

Lemma Add_holds (P : Z) (rec : Rec) :
  1 ≤ P →
  ∀ (p : ParquetWriter) (recs : list Rec) (fuel : nat),
    holds P p recs → (length (chain p) < fuel)%nat →
    ∃ p', ParquetWriter_Add fuel p rec = Ok p' ∧ holds P p' (recs ++ [rec]).
Proof.
  intros HP p. induction p as [fs l mx|fs l c mx IH] using chain_ind;
    intros recs fuel Hh Hfuel; simpl in Hh; simpl in Hfuel.
  - destruct Hh as (Hm & Hl & Hle & Hf). simpl in *. subst mx l.
    destruct fuel as [|fuel]; [lia|]. cbn [ParquetWriter_Add p_len p_max p_child].
    destruct (Z.eqb_spec (len recs) P) as [E|Hne].
    + destruct fuel as [|fuel]; [lia|].
      cbn [ParquetWriter_Add new_child p_len p_max p_child p_fields].
      destruct (Z.eqb_spec 0 P) as [E0|_]; [lia|]. cbn [bind].
      eexists. split; [reflexivity|]. simpl.
      assert (Z.to_nat P = length recs) as EP by (unfold len in E; lia).
      rewrite EP, take_app_length, drop_app_length.
      repeat split; try done;
        try (rewrite ?len_app; unfold len in *; simpl; lia).
    + eexists. split; [reflexivity|]. simpl.
      repeat split; try done;
        try (rewrite ?len_app; unfold len in *; simpl; lia).
      rewrite Hf, map_map. apply map_ext. intros f.
      unfold Field_AddAll. by rewrite fold_left_app.
  - destruct Hh as (Hm & Hl & Hlt & Hf & Hc). simpl in *. subst mx l.
    destruct fuel as [|fuel]; [lia|]. cbn [ParquetWriter_Add p_len p_max p_child].
    rewrite Z.eqb_refl.
    destruct (IH _ fuel Hc ltac:(lia)) as (c' & Ec & Hc').
    rewrite Ec. cbn [bind]. eexists. split; [reflexivity|]. simpl.
    assert (Z.to_nat P ≤ length recs)%nat as HPn by (unfold len in Hlt; lia).
    rewrite take_app_le, drop_app_le by done.
    repeat split; try done;
      try (rewrite ?len_app; unfold len in *; simpl; lia).
Qed.

Lemma AddAll_holds (P : Z) :
  1 ≤ P →
  ∀ (recs : list Rec) (p : ParquetWriter) (before : list Rec) (fuel : nat),
    holds P p before → (length before + length recs < fuel)%nat →
    ∃ p', ParquetWriter_AddAll fuel p recs = Ok p' ∧ holds P p' (before ++ recs).
Proof.
  intros HP. induction recs as [|rec recs IH]; intros p before fuel Hh Hfuel.
  - exists p. split; [done|]. by rewrite app_nil_r.
  - cbn [ParquetWriter_AddAll]. simpl in Hfuel.
    pose proof (shaped_chain_bound P p _ HP (holds_shaped P p before ltac:(lia) Hh)) as Hb.
    unfold len in Hb.
    destruct (Add_holds P rec HP p before fuel Hh ltac:(lia)) as (p1 & E1 & Hp1).
    rewrite E1. cbn [bind].
    destruct (IH p1 (before ++ [rec]) fuel Hp1) as (p' & E' & Hp').
    { rewrite length_app. simpl. lia. }
    exists p'. split; [done|]. by rewrite <- app_assoc in Hp'.
Qed.

(** Chaining keeps every record, in order. After the records [recs] are
    added to a fresh writer with [max = P >= 1], row group [j] of the chain
    holds the records [j * P, (j + 1) * P): each of its column buffers is the
    buffer of [Fields()] with exactly those records added, in order, and
    its [len] is their number. *)
Theorem chain_holds_records (P : Z) (recs : list Rec) (fuel : nat) :
  1 ≤ P → (length recs < fuel)%nat →
  ∃ p, ParquetWriter_AddAll fuel (mkParquetWriter Fields 0 None P) recs = Ok p
       ∧ holds P p recs.
Proof.
  intros HP Hfuel.
  destruct (AddAll_holds P HP recs (mkParquetWriter Fields 0 None P) [] fuel)
    as (p & E & Hp); [| simpl; lia | by exists p].
  simpl. repeat split; try done; [unfold len; simpl; lia|].
  symmetry. apply map_id.
Qed.

(** With a negative page size no row group is ever full: every record goes
    to the root, and no child is created. *)
Theorem negative_page_size_never_chains (P : Z) (recs : list Rec) (fuel : nat) :
  P < 0 → (1 ≤ fuel)%nat →
  ParquetWriter_AddAll fuel (mkParquetWriter Fields 0 None P) recs
  = Ok (mkParquetWriter (map (λ f, Field_AddAll f recs) Fields) (len recs) None P).
Proof.
  intros HP Hfuel.
  assert (∀ recs before,
    ParquetWriter_AddAll fuel
      (mkParquetWriter (map (λ f, Field_AddAll f before) Fields) (len before) None P) recs
    = Ok (mkParquetWriter (map (λ f, Field_AddAll f (before ++ recs)) Fields)
            (len (before ++ recs)) None P)) as Hgen.
  { clear recs. induction recs as [|rec recs IH]; intros before.
    - simpl. by rewrite app_nil_r.
    - cbn [ParquetWriter_AddAll]. destruct fuel as [|fuel']; [lia|].
      cbn [ParquetWriter_Add p_len p_max p_child p_fields].
      destruct (Z.eqb_spec (len before) P) as [E|_]; [unfold len in E; lia|].
      cbn [bind].
      replace (map (λ f, Field_Add f rec) (map (λ f, Field_AddAll f before) Fields))
        with (map (λ f, Field_AddAll f (before ++ [rec])) Fields).
      + replace (len before + 1) with (len (before ++ [rec])).
        * rewrite IH. by rewrite <- app_assoc.
        * rewrite len_app. unfold len at 2. simpl. lia.
      + rewrite map_map. apply map_ext. intros f.
        unfold Field_AddAll. by rewrite fold_left_app. }
  specialize (Hgen recs []).
  assert (map (λ f : Field Rec, Field_AddAll f []) Fields = Fields) as E by apply map_id.
  cbn [app] in Hgen. rewrite E in Hgen. exact Hgen.
Qed.

End HoldsFacts.

(** ** The write counter, [Next] and [getFields] *)

(** Whatever holds of every successful [Write] on the counter, and is
    reflexive and transitive, holds of every operation of the writer. *)
Section Writes.
Context {C : Collaborator} {T : Template}.
Variable R : WriteCounter → WriteCounter → Prop.
Hypothesis R_refl : ∀ wc, R wc wc.
Hypothesis R_trans : ∀ a b c, R a b → R b c → R a c.
Hypothesis R_write : ∀ wc p wc', write_or_fail wc p = Ok wc' → R wc wc'.

Lemma WritePageHeader_writes st st' col a b c :
  WritePageHeader st col a b c = Ok st' → R (out st) (out st').
Proof.
  unfold WritePageHeader. intros E.
  apply bind_Ok in E as ([m hdr] & _ & E).
  apply bind_Ok in E as (wc & Ew & E). inversion E; subst; simpl.
  by eapply R_write.
Qed.

Lemma Field_Write_writes f st st' :
  Field_Write f st = Ok st' → R (out st) (out st').
Proof.
  assert (∀ col vals count, RequiredField_doWrite col st vals count = Ok st' →
            R (out st) (out st')) as Hreq.
  { unfold RequiredField_doWrite. intros col vals count E.
    apply bind_Ok in E as (st1 & E1 & E).
    apply bind_Ok in E as (wc & Ew & E). inversion E; subst; simpl.
    eapply R_trans; [by eapply WritePageHeader_writes | by eapply R_write]. }
  assert (∀ defs col vals count, OptionalField_doWrite defs col st vals count = Ok st' →
            R (out st) (out st')) as Hopt.
  { unfold OptionalField_doWrite. intros defs col vals count E.
    apply bind_Ok in E as (wc0 & _ & E).
    apply bind_Ok in E as (st1 & E1 & E).
    apply bind_Ok in E as (wc & Ew & E). inversion E; subst; simpl.
    eapply R_trans; [by eapply WritePageHeader_writes | by eapply R_write]. }
  destruct f; simpl; eauto.
Qed.

Lemma Write_children_writes i c : ∀ st st',
  Write_children i c st = Ok st' → R (out st) (out st').
Proof.
  induction c as [fs l mx|fs l c mx IH] using chain_ind; intros st st' E; simpl in E;
    destruct (fs !! i) as [f|]; try discriminate;
    apply bind_Ok in E as (st1 & E1 & E).
  - inversion E; subst. by eapply Field_Write_writes.
  - eapply R_trans; [by eapply Field_Write_writes | by eapply IH].
Qed.

Lemma Write_fields_writes p fs : ∀ i st st',
  Write_fields p i fs st = Ok st' → R (out st) (out st').
Proof.
  induction fs as [|f fs IH]; intros i st st' E; simpl in E.
  - inversion E. apply R_refl.
  - apply bind_Ok in E as (st1 & E1 & E).
    apply bind_Ok in E as (st2 & E2 & E).
    eapply R_trans; [by eapply Field_Write_writes|].
    eapply R_trans; [| by eapply IH].
    destruct (p_child p) as [c|].
    + by eapply Write_children_writes.
    + inversion E2. apply R_refl.
Qed.

Lemma run_calls_writes fuel cs : ∀ h h',
  run_calls fuel h cs = Ok h' → R (h_w h) (h_w h').
Proof.
  induction cs as [|[rec|] cs IH]; intros h h' E; simpl in E.
  - inversion E. apply R_refl.
  - apply bind_Ok in E as (h1 & E1 & E).
    unfold Handle_Add in E1. apply bind_Ok in E1 as (p & _ & E1).
    inversion E1; subst. by apply (IH _ _ E).
  - apply bind_Ok in E as (h1 & E1 & E).
    unfold ParquetWriter_Write in E1. apply bind_Ok in E1 as (st & Es & E1).
    inversion E1; subst.
    eapply R_trans; [| by apply (IH _ _ E)]. simpl.
    apply Write_fields_writes in Es. exact Es.
Qed.

Lemma apply_options_writes opts : ∀ b b',
  apply_options b opts = Ok b' → R (b_w b) (b_w b').
Proof.
  induction opts as [|opt opts IH]; intros b b' E; simpl in E.
  - inversion E. apply R_refl.
  - apply bind_Ok in E as (b1 & E1 & E).
    eapply R_trans; [| by eapply IH].
    destruct opt; simpl in E1.
    + inversion E1. apply R_refl.
    + inversion E1. apply R_refl.
    + apply bind_Ok in E1 as (wc & Ew & E1). inversion E1; subst. simpl.
      by eapply R_write.
Qed.

Lemma session_writes (sink : Sink) (opts : list writer_option) (fuel : nat)
    (cs : list call) (h0 h1 h2 : Handle) :
  NewParquetWriter sink opts = Ok h0 →
  run_calls fuel h0 cs = Ok h1 →
  ParquetWriter_Close h1 = Ok h2 →
  R (mkWriteCounter 0 sink) (h_w h0) ∧ R (h_w h0) (h_w h1) ∧ R (h_w h1) (h_w h2).
Proof.
  intros E0 E1 E2. split; [|split].
  - unfold NewParquetWriter, newParquetWriter in E0.
    apply bind_Ok in E0 as (b & Eb & E0). inversion E0; subst; clear E0. simpl.
    by apply apply_options_writes in Eb.
  - by eapply run_calls_writes.
  - unfold ParquetWriter_Close, Footer in E2.
    apply bind_Ok in E2 as (wc & Ef & E2).
    apply bind_Ok in Ef as (ft & _ & Ef).
    apply bind_Ok in E2 as (wc' & Em & E2). inversion E2; subst; clear E2. simpl.
    eapply R_trans; by eapply R_write.
Qed.

End Writes.

Section Counting.
Context {C : Collaborator} {T : Template}.

Lemma counted_write wc p wc' : write_or_fail wc p = Ok wc' → counted wc wc'.
Proof.
  unfold write_or_fail, WriteCounter_Write, Sink_Write, counted.
  destruct (room (wc_w wc)) as [k|]; [destruct (length p <=? k)%nat |];
    simpl; intros E; inversion E; subst; simpl; rewrite len_app; lia.
Qed.

(** The counter of the writer counts the bytes of the file: from
    [NewParquetWriter] on, after any records added and flushes, and after
    [Close], [p.w.n] is the number of bytes that the sink received. *)
Theorem counter_counts_file_bytes (sink : Sink) (opts : list writer_option)
    (fuel : nat) (cs : list call) (h0 h1 h2 : Handle) :
  NewParquetWriter sink opts = Ok h0 →
  run_calls fuel h0 cs = Ok h1 →
  ParquetWriter_Close h1 = Ok h2 →
  let written h := len (data (wc_w (h_w h))) - len (data sink) in
  wc_n (h_w h0) = written h0 ∧ wc_n (h_w h1) = written h1
  ∧ wc_n (h_w h2) = written h2.
Proof.
  intros E0 E1 E2 written.
  assert (∀ wc, counted wc wc) as Hrefl by (intros wc; unfold counted; lia).
  assert (∀ a b c, counted a b → counted b c → counted a c) as Htrans
    by (unfold counted; intros a b c Hab Hbc; lia).
  destruct (session_writes counted Hrefl Htrans counted_write
              sink opts fuel cs h0 h1 h2 E0 E1 E2) as (H0 & H1 & H2).
  unfold counted, written in *. simpl in H0. lia.
Qed.

(** [Next] gives [true] as many times as there are rows left, and [false]
    from then on. *)
Theorem Next_counts_rows (k : nat) : ∀ p : ParquetReader,
  (Next_calls k p).1
  = replicate (k `min` Z.to_nat (pr_rows p - pr_cur p)) true
    ++ replicate (k - Z.to_nat (pr_rows p - pr_cur p)) false.
Proof.
  induction k as [|k IH]; intros p; [done|].
  cbn [Next_calls]. unfold ParquetReader_Next.
  destruct (Z.leb_spec (pr_rows p) (pr_cur p)) as [Hle|Hlt].
  - specialize (IH p). destruct (Next_calls k p) as [bs p2]. simpl in *.
    rewrite IH. replace (Z.to_nat (pr_rows p - pr_cur p)) with 0%nat by lia.
    rewrite !Nat.min_0_r. replace (k - 0)%nat with k by lia.
    replace (S k - 0)%nat with (S k) by lia. done.
  - match goal with |- context [Next_calls k ?q] => specialize (IH q) end.
    destruct (Next_calls k _) as [bs p2]. simpl in *. rewrite IH.
    replace (Z.to_nat (pr_rows p - pr_cur p))
      with (S (Z.to_nat (pr_rows p - (pr_cur p + 1)))) by lia.
    simpl. done.
Qed.

Lemma getFields_fold_other (gg : list (Field Rec)) :
  ∀ (m0 : gmap string (Field Rec)) (k : string),
    k ∉ Field_Name <$> gg →
    fold_left (λ m g, <[Field_Name g := g]> m) gg m0 !! k = m0 !! k.
Proof.
  induction gg as [|g gg IH]; intros m0 k Hnot; [done|].
  simpl in *. apply not_elem_of_cons in Hnot as [Hne Hnot].
  rewrite IH by done. by rewrite lookup_insert_ne.
Qed.

(** [getFields] maps a name to the last field of the list that has it: a
    field with a unique name is found under its name, and of two fields
    with one name the earlier is not reachable. *)
Theorem getFields_last_wins (ff gg : list (Field Rec)) (f : Field Rec) :
  Field_Name f ∉ Field_Name <$> gg →
  getFields (ff ++ f :: gg) !! Field_Name f = Some f.
Proof.
  intros Hnot. unfold getFields. rewrite fold_left_app. cbn [fold_left].
  rewrite getFields_fold_other by done. apply lookup_insert_eq.
Qed.

End Counting.

(** ** Pages written and read back *)

Section PageRoundTrip.
Context {C : Collaborator} {T : Template}.
Hypothesis HC : faithful C.

Lemma required_Write_bytes (f : Field Rec) (st st' : Store) :
  is_required f → Field_Write f st = Ok st' →
  ∃ m' hdr,
    page_header (meta st) (Field_Name f) (len (required_payload f))
      (len (snappy_Encode (required_payload f))) (required_count f) = Ok (m', hdr)
    ∧ data (wc_w (out st'))
      = data (wc_w (out st)) ++ hdr ++ snappy_Encode (required_payload f).
Proof.
  intros Hreq E.
  assert (∀ col payload count, RequiredField_doWrite col st payload count = Ok st' →
     ∃ m' hdr, page_header (meta st) col (len payload) (len (snappy_Encode payload)) count
                = Ok (m', hdr)
       ∧ data (wc_w (out st')) = data (wc_w (out st)) ++ hdr ++ snappy_Encode payload) as Hw.
  { clear. unfold RequiredField_doWrite, WritePageHeader. intros col payload count E.
    apply bind_Ok in E as (st1 & E1 & E).
    apply bind_Ok in E1 as ([m' hdr] & Eh & E1).
    apply bind_Ok in E1 as (wc1 & Ew1 & E1). inversion E1; subst; clear E1.
    apply bind_Ok in E as (wc2 & Ew2 & E). inversion E; subst; clear E. simpl in *.
    apply write_or_fail_appends in Ew1, Ew2.
    exists m', hdr. split; [done|]. by rewrite Ew2, Ew1, app_assoc. }
  destruct f; simpl in Hreq; try done; simpl in E; by apply Hw.
Qed.

Lemma Stream_Read_available (before got after : list Z) :
  got ++ after ≠ [] →
  Stream_Read (mkStream (before ++ got ++ after) (length before)) (length got)
  = (got, mkStream (before ++ got ++ after) (length before + length got), None).
Proof.
  intros Hne. unfold Stream_Read. cbn [s_data s_pos].
  destruct (Nat.leb_spec (length (before ++ got ++ after)) (length before)) as [Hle|_].
  { rewrite !length_app in Hle.
    destruct got, after; simpl in *; try lia. done. }
  rewrite drop_app_length, take_app_length, Nat.sub_diag. simpl.
  by rewrite app_nil_r.
Qed.

(** One round of the loop of [doRead] over a page that [doWrite] wrote. *)
Lemma required_doRead_page (fuel : nat) (mr m m' : Metadata) (col : string)
    (payload hdr before after : list Z) (count : Z) (pos : Position)
    (nRead : Z) (acc : list Z) :
  page_header m col (len payload) (len (snappy_Encode payload)) count = Ok (m', hdr) →
  len (snappy_Encode payload) < 2 ^ 31 → 0 ≤ count < 2 ^ 31 →
  snappy_Encode payload ++ after ≠ [] →
  nRead < pos_N pos →
  RequiredField_doRead (S fuel) mr
    (mkStream (before ++ hdr ++ snappy_Encode payload ++ after) (length before))
    pos nRead acc
  = RequiredField_doRead fuel mr
      (mkStream (before ++ hdr ++ snappy_Encode payload ++ after)
         (length before + length hdr + length (snappy_Encode payload)))
      pos (nRead + count) (acc ++ payload).
Proof.
  intros Eh Hc Hn Hne Hlt. cbn [RequiredField_doRead].
  destruct (Z.ltb_spec nRead (pos_N pos)); [|lia].
  rewrite (faithful_header C HC _ _ _ _ _ _ _ Eh) by (unfold len in *; lia).
  cbn [bind CompressedPageSize NumValues].
  destruct (Z.ltb_spec (len (snappy_Encode payload)) 0); [unfold len in *; lia|].
  replace (Z.to_nat (len (snappy_Encode payload))) with (length (snappy_Encode payload))
    by (unfold len; lia).
  replace (before ++ hdr ++ snappy_Encode payload ++ after)
    with ((before ++ hdr) ++ snappy_Encode payload ++ after) by (by rewrite <- app_assoc).
  replace (length before + length hdr)%nat with (length (before ++ hdr))
    by (by rewrite length_app).
  rewrite Stream_Read_available by done.
  rewrite (faithful_snappy C HC). cbn [bind]. done.
Qed.

Lemma write_pages_extends (fs : list (Field Rec)) : ∀ st st',
  write_pages fs st = Ok st' → extends (out st) (out st').
Proof.
  induction fs as [|f fs IH]; intros st st' E; simpl in E.
  - inversion E. apply extends_refl.
  - apply bind_Ok in E as (st1 & E1 & E).
    eapply extends_trans; [by eapply Field_Write_extends | by eapply IH].
Qed.

Lemma required_count_sum_nonneg (fs : list (Field Rec)) :
  Forall required_page_fits fs → 0 ≤ foldr (λ f s, required_count f + s) 0 fs.
Proof.
  induction 1 as [|f fs (_ & _ & Hn) _ IH]; simpl; lia.
Qed.

(** What [doRead] returns for a column of required pages: the payloads of
    the pages that the [Write]s of the column's buffers wrote, one after the
    other, and the input behind the last page. *)
Lemma required_doRead_pages (fs : list (Field Rec)) :
  ∀ (st st' : Store) (fuel : nat) (mr : Metadata) (after : list Z)
    (pos : Position) (nRead : Z) (acc : list Z),
    Forall required_page_fits fs →
    write_pages fs st = Ok st' →
    after ≠ [] → (length fs ≤ fuel)%nat →
    pos_N pos = nRead + foldr (λ f s, required_count f + s) 0 fs →
    RequiredField_doRead fuel mr
      (mkStream (data (wc_w (out st')) ++ after) (length (data (wc_w (out st)))))
      pos nRead acc
    = Ok (acc ++ concat (required_payload <$> fs),
          mkStream (data (wc_w (out st')) ++ after) (length (data (wc_w (out st'))))).
Proof.
  induction fs as [|f fs IH]; intros st st' fuel mr after pos nRead acc Hfit Ew Hne Hfuel HN.
  - simpl in Ew. inversion Ew; subst. simpl in HN.
    destruct fuel; cbn [RequiredField_doRead];
      (destruct (Z.ltb_spec nRead (pos_N pos)); [lia|]); simpl; by rewrite app_nil_r.
  - apply Forall_cons in Hfit as [(Hreq & Hc & Hn) Hfit].
    simpl in Ew. apply bind_Ok in Ew as (st1 & E1 & Ew).
    destruct (required_Write_bytes f st st1 Hreq E1) as (m' & hdr & Eh & Ed).
    destruct (write_pages_extends _ _ _ Ew) as [x Ex].
    pose proof (required_count_sum_nonneg fs Hfit) as Hsum.
    cbn [foldr] in HN.
    destruct fuel as [|fuel]; [simpl in Hfuel; lia|].
    rewrite Ex, Ed. rewrite <- !app_assoc.
    rewrite (required_doRead_page fuel mr (meta st) m' (Field_Name f)
               (required_payload f) hdr (data (wc_w (out st))) (x ++ after)
               (required_count f) pos nRead acc);
      [| done | done | lia | | lia].
    2:{ intros E. apply app_eq_nil in E as [_ E]. apply app_eq_nil in E as [_ E]. done. }
    specialize (IH st1 st' fuel mr after pos (nRead + required_count f)
                  (acc ++ required_payload f) Hfit Ew Hne ltac:(simpl in Hfuel; lia)
                  ltac:(lia)).
    rewrite Ex, Ed in IH. rewrite <- !app_assoc in IH.
    rewrite !length_app in IH. rewrite Nat.add_assoc in IH.
    rewrite IH. cbn [fmap list_fmap concat].
    rewrite !length_app. done.
Qed.

Lemma optional_Write_bytes (f : Field Rec) (st st' : Store) :
  is_optional f → Field_Write f st = Ok st' →
  ∃ lv m' hdr,
    levels (optional_defs f) = Ok lv
    ∧ page_header (meta st) (Field_Name f) (len lv + len (optional_payload f))
        (len (snappy_Encode (lv ++ optional_payload f))) (len (optional_defs f))
      = Ok (m', hdr)
    ∧ data (wc_w (out st'))
      = data (wc_w (out st)) ++ hdr ++ snappy_Encode (lv ++ optional_payload f).
Proof.
  intros Hopt E.
  assert (∀ defs col payload count,
     OptionalField_doWrite defs col st payload count = Ok st' →
     ∃ lv m' hdr, levels defs = Ok lv
       ∧ page_header (meta st) col (len lv + len payload)
           (len (snappy_Encode (lv ++ payload))) (len defs) = Ok (m', hdr)
       ∧ data (wc_w (out st'))
         = data (wc_w (out st)) ++ hdr ++ snappy_Encode (lv ++ payload)) as Hw.
  { clear. unfold OptionalField_doWrite. intros defs col payload count E.
    rewrite OptionalField_fill_eq in E.
    apply bind_Ok in E as (wc & Ef & E).
    apply bind_Ok in Ef as (lv & El & Ef). inversion Ef; subst; clear Ef.
    cbn [wc_n wc_w data] in E.
    apply bind_Ok in E as (st1 & E1 & E). unfold WritePageHeader in E1.
    apply bind_Ok in E1 as ([m' hdr] & Eh & E1).
    apply bind_Ok in E1 as (wc1 & Ew1 & E1). inversion E1; subst; clear E1.
    apply bind_Ok in E as (wc2 & Ew2 & E). inversion E; subst; clear E. simpl in *.
    apply write_or_fail_appends in Ew1, Ew2.
    exists lv, m', hdr. split; [done|]. split; [done|]. by rewrite Ew2, Ew1, app_assoc. }
  destruct f; simpl in Hopt; try done; simpl in E; by eapply Hw.
Qed.

(** One round of the loop of [doRead] of an optional column over a page that
    [doWrite] wrote. *)
Lemma optional_doRead_page (fuel : nat) (mr m m' : Metadata) (col : string)
    (lv payload hdr before after defs0 defs : list Z) (dataLen : Z) (pos : Position)
    (nRead : Z) (acc : list Z) :
  levels defs = Ok lv →
  page_header m col dataLen (len (snappy_Encode (lv ++ payload))) (len defs)
  = Ok (m', hdr) →
  len (snappy_Encode (lv ++ payload)) < 2 ^ 31 → len defs < 2 ^ 31 →
  snappy_Encode (lv ++ payload) ++ after ≠ [] →
  nRead < pos_N pos →
  OptionalField_doRead (S fuel) mr
    (mkStream (before ++ hdr ++ snappy_Encode (lv ++ payload) ++ after) (length before))
    pos nRead acc defs0
  = OptionalField_doRead fuel mr
      (mkStream (before ++ hdr ++ snappy_Encode (lv ++ payload) ++ after)
         (length before + length hdr + length (snappy_Encode (lv ++ payload))))
      pos (nRead + len defs) (acc ++ payload) (defs0 ++ defs).
Proof.
  intros El Eh Hc Hn Hne Hlt. cbn [OptionalField_doRead].
  destruct (Z.ltb_spec nRead (pos_N pos)); [|lia].
  rewrite (faithful_header C HC _ _ _ _ _ _ _ Eh) by (unfold len in *; lia).
  cbn [bind CompressedPageSize NumValues].
  destruct (Z.ltb_spec (len (snappy_Encode (lv ++ payload))) 0); [unfold len in *; lia|].
  replace (Z.to_nat (len (snappy_Encode (lv ++ payload))))
    with (length (snappy_Encode (lv ++ payload))) by (unfold len; lia).
  replace (before ++ hdr ++ snappy_Encode (lv ++ payload) ++ after)
    with ((before ++ hdr) ++ snappy_Encode (lv ++ payload) ++ after)
    by (by rewrite <- app_assoc).
  replace (length before + length hdr)%nat with (length (before ++ hdr))
    by (by rewrite length_app).
  rewrite Stream_Read_available by done.
  rewrite (faithful_snappy C HC). cbn [bind].
  rewrite (faithful_levels C HC _ _ _ El Hn). cbn [bind].
  destruct (Z.ltb_spec (len lv) 0); [unfold len in *; lia|].
  destruct (Z.ltb_spec (len (lv ++ payload)) (len lv));
    [rewrite len_app in *; unfold len in *; lia|].
  cbn [orb]. replace (Z.to_nat (len lv)) with (length lv) by (unfold len; lia).
  by rewrite drop_app_length.
Qed.

Lemma optional_count_sum_nonneg (fs : list (Field Rec)) :
  Forall optional_page_fits fs → 0 ≤ foldr (λ f s, len (optional_defs f) + s) 0 fs.
Proof.
  induction 1 as [|f fs (_ & Hn & _) _ IH]; simpl; lia.
Qed.

(** What [doRead] returns for a column of optional pages: the levels of the
    pages behind those the buffer had, the encoded values of the pages one
    after the other, and the input behind the last page. *)
Lemma optional_doRead_pages (fs : list (Field Rec)) :
  ∀ (st st' : Store) (fuel : nat) (mr : Metadata) (after : list Z)
    (pos : Position) (nRead : Z) (acc defs0 : list Z),
    Forall optional_page_fits fs →
    write_pages fs st = Ok st' →
    after ≠ [] → (length fs ≤ fuel)%nat →
    pos_N pos = nRead + foldr (λ f s, len (optional_defs f) + s) 0 fs →
    OptionalField_doRead fuel mr
      (mkStream (data (wc_w (out st')) ++ after) (length (data (wc_w (out st)))))
      pos nRead acc defs0
    = Ok (defs0 ++ concat (optional_defs <$> fs),
          acc ++ concat (optional_payload <$> fs),
          mkStream (data (wc_w (out st')) ++ after) (length (data (wc_w (out st'))))).
Proof.
  induction fs as [|f fs IH];
    intros st st' fuel mr after pos nRead acc defs0 Hfit Ew Hne Hfuel HN.
  - simpl in Ew. inversion Ew; subst. simpl in HN.
    destruct fuel; cbn [OptionalField_doRead];
      (destruct (Z.ltb_spec nRead (pos_N pos)); [lia|]); simpl; by rewrite !app_nil_r.
  - apply Forall_cons in Hfit as [(Hopt & Hn & Hc) Hfit].
    simpl in Ew. apply bind_Ok in Ew as (st1 & E1 & Ew).
    destruct (optional_Write_bytes f st st1 Hopt E1) as (lv & m' & hdr & El & Eh & Ed).
    destruct (write_pages_extends _ _ _ Ew) as [x Ex].
    pose proof (optional_count_sum_nonneg fs Hfit) as Hsum.
    cbn [foldr] in HN.
    destruct fuel as [|fuel]; [simpl in Hfuel; lia|].
    rewrite Ex, Ed. rewrite <- !app_assoc.
    rewrite (optional_doRead_page fuel mr (meta st) m' (Field_Name f) lv
               (optional_payload f) hdr (data (wc_w (out st))) (x ++ after) defs0
               (optional_defs f) _ pos nRead acc El Eh);
      [| by apply Hc | lia | | lia].
    2:{ intros E. apply app_eq_nil in E as [_ E]. apply app_eq_nil in E as [_ E]. done. }
    specialize (IH st1 st' fuel mr after pos (nRead + len (optional_defs f))
                  (acc ++ optional_payload f) (defs0 ++ optional_defs f) Hfit Ew Hne
                  ltac:(simpl in Hfuel; lia) ltac:(lia)).
    rewrite Ex, Ed in IH. rewrite <- !app_assoc in IH.
    rewrite !length_app in IH. rewrite Nat.add_assoc in IH.
    rewrite IH. cbn [fmap list_fmap concat].
    rewrite !length_app. done.
Qed.

End PageRoundTrip.

(** ** A column chunk written and read back *)

Section ColumnRoundTrip.
Context {C : Collaborator} {T : Template}.
Hypothesis HC : faithful C.

Lemma encode_nums_concat (t : numtype) (g : Rec → Z) (chunks : list (list Rec)) :
  concat ((λ c, encode_nums t (map g c)) <$> chunks)
  = encode_nums t (map g (concat chunks)).
Proof.
  unfold encode_nums. induction chunks as [|c chunks IH]; [done|].
  cbn [fmap list_fmap concat]. by rewrite IH, map_app, flat_map_app.
Qed.

Lemma encode_strings_concat {A : Type} (g : list A → list (list Z))
    (chunks : list (list A)) :
  (∀ a b, g (a ++ b) = g a ++ g b) →
  concat ((λ c, encode_strings (g c)) <$> chunks) = encode_strings (g (concat chunks)).
Proof.
  intros Hg. unfold encode_strings. induction chunks as [|c chunks IH].
  - simpl. specialize (Hg [] []). simpl in Hg.
    destruct (g []); [done|]. apply (f_equal length) in Hg.
    rewrite length_app in Hg. simpl in Hg. lia.
  - cbn [fmap list_fmap concat]. by rewrite IH, Hg, flat_map_app.
Qed.

Lemma sum_chunk_lengths (chunks : list (list Rec)) :
  foldr (λ c s, len c + s) 0 chunks = len (concat chunks).
Proof.
  induction chunks as [|c chunks IH]; [done|].
  simpl. by rewrite IH, len_app.
Qed.

Lemma foldr_fmap_sum {A B : Type} (g : A → B) (h : B → Z) (l : list A) :
  foldr (λ f s, h f + s) 0 (g <$> l) = foldr (λ c s, h (g c) + s) 0 l.
Proof. induction l as [|a l IH]; [done|]. simpl. f_equal. exact IH. Qed.

Lemma foldr_ext_sum {A : Type} (g h : A → Z) (l : list A) :
  (∀ a, g a = h a) → foldr (λ c s, g c + s) 0 l = foldr (λ c s, h c + s) 0 l.
Proof. intros E. induction l as [|a l IH]; [done|]. simpl. rewrite E. f_equal. exact IH. Qed.

Lemma concat_fmap_ext {A B : Type} (g h : A → list B) (l : list A) :
  (∀ a, g a = h a) → concat (g <$> l) = concat (h <$> l).
Proof. intros E. induction l as [|a l IH]; [done|]. simpl. rewrite E. f_equal. exact IH. Qed.

Lemma nVals_levels {V : Type} (g : Rec → option V) (recs : list Rec) :
  nVals (map (λ r, level_of (g r)) recs) = len (omap g recs).
Proof.
  induction recs as [|r recs IH]; [done|].
  cbn [map omap list_omap nVals]. destruct (g r); cbn [level_of];
    rewrite IH; unfold len; cbn [length Z.eqb Pos.eqb]; lia.
Qed.

Lemma omap_app' {A B : Type} (g : A → option B) (l k : list A) :
  omap g (l ++ k) = omap g l ++ omap g k.
Proof.
  induction l as [|a l IH]; [done|]. simpl. destruct (g a); simpl; [f_equal|]; exact IH.
Qed.

Lemma omap_concat {A B : Type} (g : A → option B) (chunks : list (list A)) :
  concat ((λ c : list A, omap g c) <$> chunks) = omap g (concat chunks).
Proof.
  induction chunks as [|c chunks IH]; [done|].
  cbn [fmap list_fmap concat]. by rewrite IH, omap_app'.
Qed.

Lemma encode_nums_omap_concat (t : numtype) (g : Rec → option Z)
    (chunks : list (list Rec)) :
  concat ((λ c : list Rec, encode_nums t (omap g c)) <$> chunks)
  = encode_nums t (omap g (concat chunks)).
Proof.
  unfold encode_nums. induction chunks as [|c chunks IH]; [done|].
  cbn [fmap list_fmap concat]. by rewrite IH, omap_app', flat_map_app.
Qed.

Lemma Forall_omap {A B : Type} (P : B → Prop) (g : A → option B) (l : list A) :
  Forall (λ r, ∀ v, g r = Some v → P v) l → Forall P (omap g l).
Proof.
  induction 1 as [|a l Ha _ IH]; [constructor|].
  simpl. destruct (g a) as [v|] eqn:E; [constructor; [by apply Ha | exact IH] | exact IH].
Qed.

Lemma Forall_omap_concat {A B : Type} (P : B → Prop) (g : A → option B)
    (chunks : list (list A)) :
  Forall (Forall (λ r, ∀ v, g r = Some v → P v)) chunks →
  Forall P (omap g (concat chunks)).
Proof.
  induction 1 as [|c chunks Hc _ IH]; [constructor|].
  cbn [concat]. rewrite omap_app'. apply Forall_app. split; [by apply Forall_omap | exact IH].
Qed.

Lemma map_concat' {A B : Type} (g : A → B) (chunks : list (list A)) :
  concat ((λ c : list A, map g c) <$> chunks) = map g (concat chunks).
Proof.
  induction chunks as [|c chunks IH]; [done|].
  cbn [fmap list_fmap concat]. by rewrite IH, map_app.
Qed.

Lemma omap_id_map {A B : Type} (g : A → option B) (l : list A) :
  omap id (map g l) = omap g l.
Proof.
  induction l as [|a l IH]; [done|]. simpl. destruct (g a); simpl; [f_equal|]; exact IH.
Qed.

Lemma page_fits_required (f : Field Rec) :
  is_required f → page_fits f → required_page_fits f.
Proof. intros Hr [H|(Ho & _)]; [done|]. destruct f; done. Qed.

Lemma page_fits_optional (f : Field Rec) :
  is_optional f → page_fits f → optional_page_fits f.
Proof. intros Ho [(Hr & _)|H]; [|done]. destruct f; done. Qed.

Lemma required_column_bytes (g : list Rec → Field Rec) (P : list Rec → list Z)
    (chunks : list (list Rec)) (st st' : Store) (fuel : nat) (mr : Metadata)
    (after : list Z) :
  (∀ c, is_required (g c) ∧ required_payload (g c) = P c ∧ required_count (g c) = len c) →
  Forall page_fits (g <$> chunks) →
  write_pages (g <$> chunks) st = Ok st' →
  after ≠ [] → (length chunks ≤ fuel)%nat →
  RequiredField_doRead fuel mr
    (mkStream (data (wc_w (out st')) ++ after) (length (data (wc_w (out st)))))
    (mkPosition (len (concat chunks))) 0 []
  = Ok (concat (P <$> chunks),
        mkStream (data (wc_w (out st')) ++ after) (length (data (wc_w (out st'))))).
Proof.
  intros Hg Hfit Ew Hne Hfuel.
  rewrite (required_doRead_pages HC (g <$> chunks) st st' fuel mr after
             (mkPosition (len (concat chunks))) 0 []).
  - cbn [app]. rewrite <- list_fmap_compose.
    by rewrite (concat_fmap_ext (required_payload ∘ g) P chunks) by (intros c; apply Hg).
  - rewrite Forall_fmap in Hfit |- *.
    eapply Forall_impl; [exact Hfit|]. intros c Hc. cbn [compose] in *.
    apply page_fits_required; [apply Hg | exact Hc].
  - exact Ew.
  - exact Hne.
  - by rewrite length_fmap.
  - cbn [pos_N]. rewrite foldr_fmap_sum.
    rewrite (foldr_ext_sum (λ c, required_count (g c)) len chunks) by (intros c; apply Hg).
    rewrite sum_chunk_lengths. lia.
Qed.

Lemma optional_column_bytes (g : list Rec → Field Rec) (D P : list Rec → list Z)
    (chunks : list (list Rec)) (st st' : Store) (fuel : nat) (mr : Metadata)
    (after : list Z) :
  (∀ c, is_optional (g c) ∧ optional_defs (g c) = D c ∧ optional_payload (g c) = P c
        ∧ len (D c) = len c) →
  Forall page_fits (g <$> chunks) →
  write_pages (g <$> chunks) st = Ok st' →
  after ≠ [] → (length chunks ≤ fuel)%nat →
  OptionalField_doRead fuel mr
    (mkStream (data (wc_w (out st')) ++ after) (length (data (wc_w (out st)))))
    (mkPosition (len (concat chunks))) 0 [] []
  = Ok (concat (D <$> chunks), concat (P <$> chunks),
        mkStream (data (wc_w (out st')) ++ after) (length (data (wc_w (out st'))))).
Proof.
  intros Hg Hfit Ew Hne Hfuel.
  rewrite (optional_doRead_pages HC (g <$> chunks) st st' fuel mr after
             (mkPosition (len (concat chunks))) 0 [] []).
  - cbn [app]. rewrite <- !list_fmap_compose.
    rewrite (concat_fmap_ext (optional_defs ∘ g) D chunks) by (intros c; apply Hg).
    by rewrite (concat_fmap_ext (optional_payload ∘ g) P chunks) by (intros c; apply Hg).
  - rewrite Forall_fmap in Hfit |- *.
    eapply Forall_impl; [exact Hfit|]. intros c Hc. cbn [compose] in *.
    apply page_fits_optional; [apply Hg | exact Hc].
  - exact Ew.
  - exact Hne.
  - by rewrite length_fmap.
  - cbn [pos_N]. rewrite foldr_fmap_sum.
    rewrite (foldr_ext_sum (λ c, len (optional_defs (g c))) len chunks).
    + rewrite sum_chunk_lengths. lia.
    + intros c. destruct (Hg c) as (_ & -> & _ & E). exact E.
Qed.

Lemma required_buffer {V : Type} (f : RequiredField Rec V) (c : list Rec) :
  r_vals f = [] →
  fold_left RequiredField_Add c f
  = mkRequiredField (r_col f) (map (r_val f) c) (r_val f) (r_read f).
Proof. intros E. by rewrite RequiredField_AddAll, E. Qed.

Lemma optional_buffer {V : Type} (f : OptionalField Rec V) (c : list Rec) :
  o_defs f = [] → o_vals f = [] →
  fold_left OptionalField_Add c f
  = mkOptionalField (map (λ r, level_of (o_val f r)) c) (o_col f)
      (omap (o_val f) c) (o_val f) (o_read f).
Proof. intros E1 E2. by rewrite OptionalField_AddAll, E1, E2. Qed.

Lemma len_nat {A : Type} (l : list A) : Z.to_nat (len l) = length l.
Proof. unfold len. lia. Qed.

Lemma NumField_round_trip (t : numtype) (f : RequiredField Rec Z)
    (chunks : list (list Rec)) (st st' : Store) (fuel : nat) (mr : Metadata)
    (after : list Z) :
  r_vals f = [] →
  Forall (Forall (λ r, in_range t (r_val f r))) chunks →
  Forall page_fits ((λ c, NumField t (fold_left RequiredField_Add c f)) <$> chunks) →
  write_pages ((λ c, NumField t (fold_left RequiredField_Add c f)) <$> chunks) st = Ok st' →
  after ≠ [] → (length chunks ≤ fuel)%nat →
  NumField_Read fuel t f mr
    (mkStream (data (wc_w (out st')) ++ after) (length (data (wc_w (out st)))))
    (mkPosition (len (concat chunks)))
  = Ok (fold_left RequiredField_Add (concat chunks) f,
        mkStream (data (wc_w (out st')) ++ after) (length (data (wc_w (out st'))))).
Proof.
  intros Hf Hr Hfit Ew Hne Hfuel. unfold NumField_Read.
  rewrite (required_column_bytes (λ c, NumField t (fold_left RequiredField_Add c f))
             (λ c, encode_nums t (map (r_val f) c)) chunks st st' fuel mr after);
    try done.
  2:{ intros c. rewrite required_buffer by done.
      split; [exact I|]. split; [reflexivity|].
      unfold required_count, len. cbn [r_vals]. by rewrite length_map. }
  cbn [bind pos_N]. destruct (Z.ltb_spec (len (concat chunks)) 0) as [Hn|_];
    [unfold len in Hn; lia|].
  rewrite encode_nums_concat, len_nat.
  rewrite <- (length_map (r_val f) (concat chunks)).
  rewrite <- (app_nil_r (encode_nums t _)).
  rewrite binary_Read_encode_nums.
  - by rewrite required_buffer, Hf.
  - apply Forall_map. apply Forall_concat. exact Hr.
Qed.

Lemma StringField_round_trip (f : RequiredField Rec (list Z))
    (chunks : list (list Rec)) (st st' : Store) (fuel : nat) (mr : Metadata)
    (after : list Z) :
  r_vals f = [] →
  Forall (Forall (λ r, len (r_val f r) < 2 ^ 31)) chunks →
  Forall page_fits ((λ c, StringField (fold_left RequiredField_Add c f)) <$> chunks) →
  write_pages ((λ c, StringField (fold_left RequiredField_Add c f)) <$> chunks) st = Ok st' →
  after ≠ [] → (length chunks ≤ fuel)%nat →
  StringField_Read fuel f mr
    (mkStream (data (wc_w (out st')) ++ after) (length (data (wc_w (out st)))))
    (mkPosition (len (concat chunks)))
  = Ok (fold_left RequiredField_Add (concat chunks) f,
        mkStream (data (wc_w (out st')) ++ after) (length (data (wc_w (out st'))))).
Proof.
  intros Hf Hr Hfit Ew Hne Hfuel. unfold StringField_Read.
  rewrite (required_column_bytes (λ c, StringField (fold_left RequiredField_Add c f))
             (λ c, encode_strings (map (r_val f) c)) chunks st st' fuel mr after);
    try done.
  2:{ intros c. rewrite required_buffer by done.
      split; [exact I|]. split; [reflexivity|].
      unfold required_count, len. cbn [r_vals]. by rewrite length_map. }
  cbn [bind pos_N].
  rewrite (encode_strings_concat (map (r_val f))) by (intros; apply map_app).
  rewrite len_nat, <- (length_map (r_val f) (concat chunks)).
  rewrite <- (app_nil_r (encode_strings _)).
  rewrite StringField_Read_loop_encoded.
  - cbn [bind]. by rewrite required_buffer, Hf.
  - apply Forall_map. apply Forall_concat. exact Hr.
Qed.

Lemma BoolField_round_trip (f : RequiredField Rec bool)
    (chunks : list (list Rec)) (st st' : Store) (fuel : nat) (mr : Metadata)
    (after : list Z) :
  r_vals f = [] → (length chunks ≤ 1)%nat →
  Forall page_fits ((λ c, BoolField (fold_left RequiredField_Add c f)) <$> chunks) →
  write_pages ((λ c, BoolField (fold_left RequiredField_Add c f)) <$> chunks) st = Ok st' →
  after ≠ [] → (length chunks ≤ fuel)%nat →
  BoolField_Read fuel f mr
    (mkStream (data (wc_w (out st')) ++ after) (length (data (wc_w (out st)))))
    (mkPosition (len (concat chunks)))
  = Ok (fold_left RequiredField_Add (concat chunks) f,
        mkStream (data (wc_w (out st')) ++ after) (length (data (wc_w (out st'))))).
Proof.
  intros Hf Hone Hfit Ew Hne Hfuel. unfold BoolField_Read.
  rewrite (required_column_bytes (λ c, BoolField (fold_left RequiredField_Add c f))
             (λ c, rawBuf (map (r_val f) c)) chunks st st' fuel mr after);
    try done.
  2:{ intros c. rewrite required_buffer by done.
      split; [exact I|]. split; [reflexivity|].
      unfold required_count, len. cbn [r_vals]. by rewrite length_map. }
  cbn [bind pos_N].
  assert (concat ((λ c, rawBuf (map (r_val f) c)) <$> chunks)
          = rawBuf (map (r_val f) (concat chunks)) ++ []) as ->.
  { destruct chunks as [|c [|c' chunks]]; [done | | simpl in Hone; lia].
    cbn [fmap list_fmap concat]. by rewrite !app_nil_r. }
  replace (len (concat chunks)) with (len (map (r_val f) (concat chunks)))
    by (unfold len; by rewrite length_map).
  rewrite (faithful_bools C HC). cbn [bind]. by rewrite required_buffer.
Qed.

Lemma NumOptionalField_round_trip (t : numtype) (f : OptionalField Rec Z)
    (chunks : list (list Rec)) (st st' : Store) (fuel : nat) (mr : Metadata)
    (after : list Z) :
  o_defs f = [] → o_vals f = [] →
  Forall (Forall (λ r, ∀ v, o_val f r = Some v → in_range t v)) chunks →
  Forall page_fits ((λ c, NumOptionalField t (fold_left OptionalField_Add c f)) <$> chunks) →
  write_pages ((λ c, NumOptionalField t (fold_left OptionalField_Add c f)) <$> chunks) st
  = Ok st' →
  after ≠ [] → (length chunks ≤ fuel)%nat →
  NumOptionalField_Read fuel t f mr
    (mkStream (data (wc_w (out st')) ++ after) (length (data (wc_w (out st)))))
    (mkPosition (len (concat chunks)))
  = Ok (fold_left OptionalField_Add (concat chunks) f,
        mkStream (data (wc_w (out st')) ++ after) (length (data (wc_w (out st'))))).
Proof.
  intros Hd Hv Hr Hfit Ew Hne Hfuel. unfold NumOptionalField_Read. rewrite Hd, Hv.
  rewrite (optional_column_bytes
             (λ c, NumOptionalField t (fold_left OptionalField_Add c f))
             (λ c, map (λ r, level_of (o_val f r)) c)
             (λ c, encode_nums t (omap (o_val f) c)) chunks st st' fuel mr after);
    try done.
  2:{ intros c. rewrite optional_buffer by done.
      split; [exact I|]. split; [reflexivity|]. split; [reflexivity|].
      unfold len. by rewrite length_map. }
  cbn [bind]. rewrite map_concat', nVals_levels.
  change (len (@nil Z)) with 0. rewrite Z.sub_0_r.
  destruct (Z.ltb_spec (len (omap (o_val f) (concat chunks))) 0) as [Hn|_];
    [unfold len in Hn; lia|].
  rewrite len_nat.
  rewrite encode_nums_omap_concat.
  rewrite <- (app_nil_r (encode_nums t _)).
  rewrite binary_Read_encode_nums.
  - by rewrite optional_buffer.
  - by apply Forall_omap_concat.
Qed.

Lemma BoolOptionalField_round_trip (f : OptionalField Rec bool)
    (chunks : list (list Rec)) (st st' : Store) (fuel : nat) (mr : Metadata)
    (after : list Z) :
  o_defs f = [] → o_vals f = [] → (length chunks ≤ 1)%nat →
  Forall page_fits ((λ c, BoolOptionalField (fold_left OptionalField_Add c f)) <$> chunks) →
  write_pages ((λ c, BoolOptionalField (fold_left OptionalField_Add c f)) <$> chunks) st
  = Ok st' →
  after ≠ [] → (length chunks ≤ fuel)%nat →
  BoolOptionalField_Read fuel f mr
    (mkStream (data (wc_w (out st')) ++ after) (length (data (wc_w (out st)))))
    (mkPosition (len (concat chunks)))
  = Ok (fold_left OptionalField_Add (concat chunks) f,
        mkStream (data (wc_w (out st')) ++ after) (length (data (wc_w (out st'))))).
Proof.
  intros Hd Hv Hone Hfit Ew Hne Hfuel. unfold BoolOptionalField_Read. rewrite Hd, Hv.
  rewrite (optional_column_bytes
             (λ c, BoolOptionalField (fold_left OptionalField_Add c f))
             (λ c, map (λ r, level_of (o_val f r)) c)
             (λ c, rawBuf (omap (o_val f) c)) chunks st st' fuel mr after);
    try done.
  2:{ intros c. rewrite optional_buffer by done.
      split; [exact I|]. split; [reflexivity|]. split; [reflexivity|].
      unfold len. by rewrite length_map. }
  cbn [bind]. rewrite map_concat', nVals_levels.
  change (len (@nil bool)) with 0. rewrite Z.sub_0_r.
  assert (concat ((λ c, rawBuf (omap (o_val f) c)) <$> chunks)
          = rawBuf (omap (o_val f) (concat chunks)) ++ []) as ->.
  { destruct chunks as [|c [|c' chunks]]; [done | | simpl in Hone; lia].
    cbn [fmap list_fmap concat]. by rewrite !app_nil_r. }
  rewrite (faithful_bools C HC). cbn [bind]. by rewrite optional_buffer.
Qed.

Lemma StringOptionalField_round_trip (f : OptionalField Rec (list Z))
    (chunks : list (list Rec)) (st st' : Store) (fuel : nat) (mr : Metadata)
    (after : list Z) :
  o_defs f = [] → o_vals f = [] →
  Forall (Forall (λ r, ∀ s, o_val f r = Some s → len s < 2 ^ 31)) chunks →
  Forall page_fits ((λ c, StringOptionalField (fold_left OptionalField_Add c f)) <$> chunks) →
  write_pages ((λ c, StringOptionalField (fold_left OptionalField_Add c f)) <$> chunks) st
  = Ok st' →
  after ≠ [] → (length chunks ≤ fuel)%nat →
  StringOptionalField_Read fuel f mr
    (mkStream (data (wc_w (out st')) ++ after) (length (data (wc_w (out st)))))
    (mkPosition (len (concat chunks)))
  = Ok (fold_left OptionalField_Add (concat chunks) f,
        mkStream (data (wc_w (out st')) ++ after) (length (data (wc_w (out st'))))).
Proof.
  intros Hd Hv Hr Hfit Ew Hne Hfuel. unfold StringOptionalField_Read. rewrite Hd, Hv.
  rewrite (optional_column_bytes
             (λ c, StringOptionalField (fold_left OptionalField_Add c f))
             (λ c, map (λ r, level_of (o_val f r)) c)
             (λ c, encode_strings (omap (o_val f) c)) chunks st st' fuel mr after);
    try done.
  2:{ intros c. rewrite optional_buffer by done.
      split; [exact I|]. split; [reflexivity|]. split; [reflexivity|].
      unfold len. by rewrite length_map. }
  cbn [bind pos_N]. rewrite map_concat'.
  rewrite (encode_strings_concat (omap (o_val f))) by (intros; apply omap_app').
  rewrite len_nat.
  pose proof (StringOptionalField_Read_loop_encoded (map (o_val f) (concat chunks)))
    as Hloop.
  rewrite omap_id_map, length_map, map_map in Hloop.
  specialize (Hloop (Forall_omap_concat _ _ _ Hr) [] [] []).
  cbn [app] in Hloop. rewrite app_nil_r in Hloop.
  rewrite Hloop. cbn [bind]. by rewrite optional_buffer.
Qed.

(** What a writer flushed for one column of one row group, a reader reads
    back. The pages are those of the column buffers of the row groups of a
    chain, each filled by [Add] from the records of its row group; the
    collaborators are faithful; the fields are values of the column's type;
    every page is not empty and fits the sizes of a page header; a boolean
    column is in one page at most. Then [Read], given the number of records
    as the position of the column chunk, leaves in an empty buffer what
    [Add] of all the records would have, and the input behind the last
    page. *)
Theorem column_round_trip (f0 : Field Rec) (chunks : list (list Rec))
    (st st' : Store) (fuel : nat) (mr : Metadata) (after : list Z) :
  fresh f0 →
  Forall (Forall (Field_fits f0)) chunks →
  Forall page_fits (Field_AddAll f0 <$> chunks) →
  (is_bool f0 → (length chunks ≤ 1)%nat) →
  write_pages (Field_AddAll f0 <$> chunks) st = Ok st' →
  after ≠ [] → (length chunks ≤ fuel)%nat →
  Field_Read fuel f0 mr
    (mkStream (data (wc_w (out st')) ++ after) (length (data (wc_w (out st)))))
    (mkPosition (len (concat chunks)))
  = Ok (Field_AddAll f0 (concat chunks),
        mkStream (data (wc_w (out st')) ++ after) (length (data (wc_w (out st'))))).
Proof.
  intros Hf Hr Hfit Hb Ew Hne Hfuel.
  rewrite Field_AddAll_shape.
  rewrite (list_fmap_ext (Field_AddAll f0) _ chunks (λ _ c _, Field_AddAll_shape c f0))
    in Hfit, Ew.
  destruct f0 as [t f|t f|f|f|f|f]; cbn [fresh Field_fits is_bool] in *;
    cbn [Field_Read].
  - by rewrite (NumField_round_trip t f chunks st st').
  - destruct Hf. by rewrite (NumOptionalField_round_trip t f chunks st st').
  - by rewrite (BoolField_round_trip f chunks st st') by auto.
  - destruct Hf. by rewrite (BoolOptionalField_round_trip f chunks st st') by auto.
  - by rewrite (StringField_round_trip f chunks st st').
  - destruct Hf. by rewrite (StringOptionalField_round_trip f chunks st st').
Qed.

End ColumnRoundTrip.

(** ** The storing collaborator is faithful *)

Lemma to_signed_le_bytes (z : Z) :
  0 ≤ z < 2 ^ 31 → to_signed 32 (le_uint (le_bytes 4 z)) = z.
Proof. intros Hz. exact (decode_num_le_bytes Int32 z ltac:(simpl; lia)). Qed.

Lemma parse_header_written (a b c : Z) (before after : list Z) :
  0 ≤ b < 2 ^ 31 → 0 ≤ c < 2 ^ 31 →
  Stored.parse_header
    (mkStream (before ++ (le_bytes 4 a ++ le_bytes 4 b ++ le_bytes 4 c) ++ after)
       (length before))
  = Ok (mkPageHeader b c,
        mkStream (before ++ (le_bytes 4 a ++ le_bytes 4 b ++ le_bytes 4 c) ++ after)
          (length before + length (le_bytes 4 a ++ le_bytes 4 b ++ le_bytes 4 c))).
Proof.
  intros Hb Hc. unfold Stored.parse_header.
  set (hdr := le_bytes 4 a ++ le_bytes 4 b ++ le_bytes 4 c).
  assert (length hdr = 12%nat) as Hl
    by (unfold hdr; rewrite !length_app, !le_bytes_length; lia).
  rewrite <- Hl at 1.
  rewrite Stream_Read_available by (intros E; apply (f_equal length) in E;
    rewrite length_app in E; simpl in E; lia).
  cbn [s_pos]. destruct (Nat.ltb_spec (length before + length hdr - length before) 12);
    [lia|].
  unfold hdr.
  rewrite (drop_app_length' (le_bytes 4 a)) by (by rewrite le_bytes_length).
  rewrite (take_app_length' (le_bytes 4 b)) by (by rewrite le_bytes_length).
  replace (le_bytes 4 a ++ le_bytes 4 b ++ le_bytes 4 c)
    with ((le_bytes 4 a ++ le_bytes 4 b) ++ le_bytes 4 c) by (by rewrite <- app_assoc).
  rewrite (drop_app_length' (le_bytes 4 a ++ le_bytes 4 b))
    by (rewrite length_app, !le_bytes_length; lia).
  rewrite take_ge by (rewrite le_bytes_length; lia).
  by rewrite !to_signed_le_bytes.
Qed.

Lemma parse_levels_written (defs after : list Z) :
  len defs < 2 ^ 31 →
  Stored.parse_levels ((le_bytes 4 (len defs) ++ defs) ++ after)
  = Ok (defs, len (le_bytes 4 (len defs) ++ defs)).
Proof.
  intros Hd. unfold Stored.parse_levels.
  rewrite <- app_assoc.
  destruct (Nat.ltb_spec (length (le_bytes 4 (len defs) ++ defs ++ after)) 4) as [Hlt|_].
  { rewrite length_app, le_bytes_length in Hlt. lia. }
  rewrite (take_app_length' (le_bytes 4 (len defs))) by (by rewrite le_bytes_length).
  rewrite (drop_app_length' (le_bytes 4 (len defs))) by (by rewrite le_bytes_length).
  rewrite le_uint_le_bytes.
  rewrite Z.mod_small by (unfold len in *; simpl; lia).
  rewrite len_nat.
  destruct (Nat.ltb_spec (length (le_bytes 4 (len defs) ++ defs ++ after))
              (4 + length defs)) as [Hlt|_].
  { rewrite !length_app, le_bytes_length in Hlt. lia. }
  rewrite take_app_length. unfold len. rewrite length_app, le_bytes_length. done.
Qed.

Lemma map_nth_seq (vals : list bool) :
  map (λ i, nth i vals false) (seq 0 (length vals)) = vals.
Proof.
  induction vals as [|v vals IH]; [done|].
  cbn [length seq map nth]. f_equal.
  rewrite <- seq_shift, map_map. exact IH.
Qed.

Lemma bit_at_rawBuf (vals : list bool) (after : list Z) (i : nat) :
  (i < length vals)%nat →
  Stored.bit_at (rawBuf vals ++ after) i = nth i vals false.
Proof.
  intros Hi. unfold Stored.bit_at.
  assert (length (rawBuf vals) = ((length vals + 7) / 8)%nat) as Hl
    by (unfold rawBuf; rewrite pack_loop_length; apply length_replicate).
  rewrite app_nth1 by (rewrite Hl; natdiv).
  unfold rawBuf. rewrite pack_loop_bit; [| natdiv | rewrite length_replicate; natdiv].
  rewrite nth_replicate_0, Z.testbit_0_l, bool_decide_eq_true_2 by lia.
  cbn [orb andb]. f_equal. natdiv.
Qed.

Lemma unpack_rawBuf (vals : list bool) (after : list Z) :
  Stored.unpack (rawBuf vals ++ after) (len vals) = Ok vals.
Proof.
  unfold Stored.unpack.
  destruct (Z.ltb_spec (len vals) 0) as [Hn|_]; [unfold len in Hn; lia|].
  assert (length (rawBuf vals) = ((length vals + 7) / 8)%nat) as Hl
    by (unfold rawBuf; rewrite pack_loop_length; apply length_replicate).
  destruct (Z.leb_spec (len vals) (8 * len (rawBuf vals ++ after))) as [_|Hgt].
  2:{ unfold len in Hgt. rewrite length_app, Hl in Hgt. natdiv. }
  rewrite len_nat. f_equal. etransitivity; [|apply map_nth_seq].
  apply map_ext_in. intros i Hi. apply in_seq in Hi.
  apply bit_at_rawBuf. lia.
Qed.

(** The storing collaborator reads back what it wrote. *)
Lemma collaborator_faithful (rgs : list RowGroup) (offs : gmap string (list Position))
    (rows : Z) :
  faithful (Stored.collaborator rgs offs rows).
Proof.
  split.
  - done.
  - intros m col dataLen compressedLen count m' hdr E Hc Hn mr before after.
    cbn in E. inversion E; subst; clear E.
    exact (parse_header_written dataLen compressedLen count before after Hc Hn).
  - intros defs lv after E Hd. cbn in E. inversion E; subst; clear E.
    exact (parse_levels_written defs after Hd).
  - intros vals after. exact (unpack_rawBuf vals after).
Qed.

(** ** The properties at the stored examples *)

Lemma binary_round_trip_witness :
  Forall (in_range Int32) [-1; 258]
  ∧ binary_Read Int32 (encode_nums Int32 [-1; 258] ++ [7]) 2 = ([-1; 258], None)
  ∧ len (encode_nums Int32 [-1; 258]) = Z.of_nat (width Int32) * len [-1; 258]
  ∧ Forall (λ b, 0 ≤ b < 256) (encode_nums Int32 [-1; 258]).
Proof.
  assert (H : Forall (in_range Int32) [-1; 258]) by (repeat constructor; simpl; lia).
  split; [exact H|]. exact (binary_round_trip Int32 [-1; 258] [7] H).
Defined.

Lemma string_round_trip_witness :
  Forall (λ s, len s < 2 ^ 31) (omap id [Some [97]; None; Some []])
  ∧ StringField_Read_loop 2 (encode_strings [[97]; []] ++ [9]) [] = Ok [[97]; []]
  ∧ StringOptionalField_Read_loop 3 0 [1; 0; 1] (encode_strings [[97]; []] ++ [9]) []
    = Ok [[97]; []].
Proof.
  assert (H : Forall (λ s, len s < 2 ^ 31) (omap id [Some [97]; None; Some []]))
    by (repeat constructor).
  split; [exact H|]. exact (string_round_trip [Some [97]; None; Some []] [9] H).
Defined.

Lemma first_in_first_out_witness :
  fresh Sample.age_field
  ∧ Field_Scan (Field_AddAll Sample.age_field [Stored.bob; Stored.alice]) Stored.carol
    = Ok (Field_AddAll Sample.age_field [Stored.alice],
          Stored.mkPerson 3 (Some []) (Some 41)).
Proof.
  assert (H : fresh Sample.age_field) by (split; reflexivity).
  split; [exact H|].
  exact (first_in_first_out Sample.age_field Stored.bob [Stored.alice] Stored.carol H).
Defined.

Lemma optional_Scan_keeps_invariant_witness :
  nVals (o_defs Stored.age_column) = len (o_vals Stored.age_column)
  ∧ ∃ f' x', OptionalField_Scan Stored.age_column Stored.alice = Ok (f', x')
             ∧ nVals (o_defs f') = len (o_vals f').
Proof.
  assert (H : nVals (o_defs Stored.age_column) = len (o_vals Stored.age_column))
    by reflexivity.
  split; [exact H|].
  exact (optional_Scan_keeps_invariant Stored.age_column Stored.alice H).
Defined.

Lemma chain_holds_records_witness :
  ∃ p, @ParquetWriter_AddAll Stored.person 4
         (@mkParquetWriter Stored.person (@Fields Stored.person) 0 None 2)
         [Stored.alice; Stored.bob; Stored.carol] = Ok p
       ∧ @holds Stored.person 2 p [Stored.alice; Stored.bob; Stored.carol].
Proof.
  apply (@chain_holds_records Stored.person 2
           [Stored.alice; Stored.bob; Stored.carol] 4); [lia | simpl; lia].
Defined.

Lemma negative_page_size_never_chains_witness :
  @ParquetWriter_AddAll Stored.person 1
    (@mkParquetWriter Stored.person (@Fields Stored.person) 0 None (-1))
    [Stored.alice; Stored.bob; Stored.carol]
  = Ok (@mkParquetWriter Stored.person
          (map (λ f, Field_AddAll f [Stored.alice; Stored.bob; Stored.carol])
             (@Fields Stored.person)) 3 None (-1)).
Proof.
  apply (@negative_page_size_never_chains Stored.person (-1)
           [Stored.alice; Stored.bob; Stored.carol] 1); lia.
Defined.

Lemma counter_counts_file_bytes_witness :
  wc_n (h_w Stored.h0) = len (data (wc_w (h_w Stored.h0))) - len (data Stored.empty_sink)
  ∧ wc_n (h_w Stored.h1) = len (data (wc_w (h_w Stored.h1))) - len (data Stored.empty_sink)
  ∧ wc_n (h_w Stored.h2) = len (data (wc_w (h_w Stored.h2))) - len (data Stored.empty_sink).
Proof.
  assert (E0 : @NewParquetWriter Stored.writing Stored.person Stored.empty_sink
                 [MaxPageSize 2] = Ok Stored.h0)
    by (apply Ok_value; vm_compute; reflexivity).
  assert (E1 : @run_calls Stored.writing Stored.person 4 Stored.h0 Stored.calls
               = Ok Stored.h1)
    by (apply Ok_value; vm_compute; reflexivity).
  assert (E2 : @ParquetWriter_Close Stored.writing Stored.person Stored.h1
               = Ok Stored.h2)
    by (apply Ok_value; vm_compute; reflexivity).
  exact (@counter_counts_file_bytes Stored.writing Stored.person _ _ _ _ _ _ _ E0 E1 E2).
Defined.

Lemma getFields_last_wins_witness :
  @getFields Stored.person (@Fields Stored.person) !! "id"%string = Some Sample.id_field.
Proof.
  apply (@getFields_last_wins Stored.person [] _ Sample.id_field).
  simpl. rewrite !not_elem_of_cons. repeat split; [discriminate | discriminate |].
  apply not_elem_of_nil.
Defined.

Lemma column_round_trip_witness :
  @Field_Read Stored.writing Stored.person 2 Sample.age_field []
    (mkStream (data (wc_w (out Sample.age_pages)) ++ [0])
       (length (data (wc_w (out Sample.blank)))))
    (mkPosition 3)
  = Ok (Field_AddAll Sample.age_field [Stored.alice; Stored.bob; Stored.carol],
        mkStream (data (wc_w (out Sample.age_pages)) ++ [0])
          (length (data (wc_w (out Sample.age_pages))))).
Proof.
  apply (@column_round_trip Stored.writing Stored.person
           (collaborator_faithful [] ∅ 0) Sample.age_field Sample.chunks
           Sample.blank Sample.age_pages 2 [] [0]).
  - split; reflexivity.
  - repeat first [apply Forall_nil_2 | apply Forall_cons_2];
      intros v E; inversion E; simpl; lia.
  - repeat first [apply Forall_nil_2 | apply Forall_cons_2];
      right; (split; [exact I|]); (split; [vm_compute; split; congruence|]);
      intros lv E; inversion E; vm_compute; reflexivity.
  - intros [].
  - apply Ok_value. vm_compute. reflexivity.
  - discriminate.
  - simpl. lia.
Defined.
